(** * MapReduce: a shallow embedding of [mapreduce.c] and [usr_functions.c]

    The development follows the two C files of the repository:
    - the partitioner, the worker life cycle and the barrier of
      [mapreduce()] ([mapreduce.c]);
    - the four user functions [letter_counter_map], [letter_counter_reduce],
      [word_finder_map] and [word_finder_reduce] ([usr_functions.c]).

    Files are byte sequences, the file system is a finite map from names to
    contents, and the coordinator is a program in a small state-and-exit
    monad that records what it does in a trace. *)

From Stdlib Require Import ZArith Ascii String List Lia.
From stdpp Require Import gmap strings list fin_maps pretty.

Local Open Scope Z_scope.

(** ** Bytes and C strings *)

Abbreviation byte := ascii.
Abbreviation bytes := (list ascii).

Definition NUL : byte := "000"%char.
Definition nl : byte := "010"%char.

(** The bytes of a string literal. *)
Definition B (s : string) : bytes := list_ascii_of_string s.

(** What the C string functions see of a buffer: the bytes before the first
    NUL. [fgets] and the line builders below always NUL-terminate after the
    bytes they stored, so a buffer is modelled by the stored bytes. *)
Fixpoint cstr (buffer : bytes) : bytes :=
  match buffer with
  | [] => []
  | c :: buffer' => if (c =? NUL)%char then [] else c :: cstr buffer'
  end.

Definition strlen (buffer : bytes) : Z := Z.of_nat (length (cstr buffer)).

(** [fputs(buffer, file)]: appends the C string held by [buffer]. *)
Definition fputs (buffer : bytes) (file : bytes) : bytes := file ++ cstr buffer.

(** ** Phase 1 of [mapreduce()]: the partitioner *)

(** [fgets] stores at most [room] bytes and stops after a newline; the
    second component is what is left of the stream. *)
Fixpoint fgets_store (room : nat) (stream : bytes) : bytes * bytes :=
  match room, stream with
  | S room', c :: stream' =>
      if (c =? nl)%char then ([c], stream')
      else let '(buffer, rest) := fgets_store room' stream' in (c :: buffer, rest)
  | _, _ => ([], stream)
  end.

(** [fgets(buffer, size, stream)]: [None] stands for the NULL returned at
    end of file when nothing was read. *)
Definition fgets (size : nat) (stream : bytes) : option (bytes * bytes) :=
  match stream with
  | [] => None
  | _ => Some (fgets_store (size - 1) stream)
  end.

(** [sizeof(buffer)] of [char buffer[1024]]. *)
Definition BUFFER_SIZE : nat := 1024.

(** The [while] loop of lines 61-64, writing into [split_file] (initially
    the empty, freshly truncated file):
<<
    while (bytes_read < split_size && fgets(buffer, sizeof(buffer), input_file)) {
        fputs(buffer, split_file);
        bytes_read += strlen(buffer);
    }
>>
    Every iteration that runs the body consumes at least one byte of the
    stream, so [fuel] is the number of iterations still allowed;
    [copy_records] starts it with the length of the stream.  [bytes_read]
    is a C [long]: it never exceeds the file size, which [ftell] returned
    as a [long], so no wrap-around is written. *)
Fixpoint copy_loop (fuel : nat) (split_size bytes_read : Z)
    (split_file stream : bytes) : bytes * bytes :=
  match fuel with
  | O => (split_file, stream)
  | S fuel' =>
      if bytes_read <? split_size then
        match fgets BUFFER_SIZE stream with
        | None => (split_file, stream)
        | Some (buffer, rest) =>
            copy_loop fuel' split_size (bytes_read + strlen buffer)
              (fputs buffer split_file) rest
        end
      else (split_file, stream)
  end.

Definition copy_records (split_size : Z) (stream : bytes) : bytes * bytes :=
  copy_loop (length stream) split_size 0 [] stream.

(** The [for] loop of lines 47-71 as far as the contents of the split
    files go: the list of what is written to split-0, split-1, ... *)
Fixpoint split_files (todo : nat) (split_size : Z) (stream : bytes) : list bytes :=
  match todo with
  | O => []
  | S todo' =>
      let '(split_file, rest) := copy_records split_size stream in
      split_file :: split_files todo' split_size rest
  end.

(** [split_size = input_file_size / total_splits] (line 36), then the loop. *)
Definition partition (input : bytes) (total_splits : nat) : list bytes :=
  split_files total_splits (Z.of_nat (length input) ÷ Z.of_nat total_splits) input.

(** *** Vocabulary for the partitioner's properties *)

(** Every record, its newline included, fits into [cap] bytes; [left] is the
    room left for the record being read. *)
Fixpoint fits (cap left : nat) (stream : bytes) : bool :=
  match stream with
  | [] => true
  | c :: stream' =>
      match left with
      | O => false
      | S left' => if (c =? nl)%char then fits cap cap stream' else fits cap left' stream'
      end
  end.

Definition no_nul (s : bytes) : bool := forallb (fun c => negb (c =? NUL)%char) s.

(** A text file the partitioner reads record by record: no NUL byte, and
    every record (newline included) fits into one [fgets] call. *)
Definition text_file (input : bytes) : bool :=
  no_nul input && fits (BUFFER_SIZE - 1) (BUFFER_SIZE - 1) input.

(** A sequence of bytes made of newline-terminated records only. *)
Definition whole_records (s : bytes) : Prop := s = [] \/ last s = Some nl.

(** The cut between [before] and [after] does not fall inside a record:
    it is at the start, just behind a newline, or at the end of the file. *)
Definition record_boundary (before after : bytes) : Prop :=
  before = [] \/ last before = Some nl \/ after = [].

(** ** The user functions of [usr_functions.c] *)

(** A C [char] is signed here: bytes from 128 on compare as negative. *)
Definition char_val (c : byte) : Z :=
  let n := Z.of_N (N_of_ascii c) in if n <? 128 then n else n - 256.

(** A C [int]: 32 bits, two's complement. *)
Definition wrap_int (z : Z) : Z := (z + 2 ^ 31) mod 2 ^ 32 - 2 ^ 31.

(** [read(fd, buffer, count)] on a regular file: the next [count] bytes, or
    what is left of them; the second component is the rest of the file.
    Read and write errors of the operating system are not modelled: a user
    function returns -1 only on the paths the code takes by itself. *)
Definition read (count : nat) (stream : bytes) : bytes * bytes :=
  (take count stream, drop count stream).

(** *** Letter counter *)

(** Lines 35-39: one byte of the read buffer. *)
Definition count_letter (letter_frequencies : list Z) (c : byte) : list Z :=
  if (char_val "A" <=? char_val c) && (char_val c <=? char_val "Z") then
    alter (fun n => wrap_int (n + 1)) (Z.to_nat (char_val c - char_val "A"))
      letter_frequencies
  else if (char_val "a" <=? char_val c) && (char_val c <=? char_val "z") then
    alter (fun n => wrap_int (n + 1)) (Z.to_nat (char_val c - char_val "a"))
      letter_frequencies
  else letter_frequencies.

(** Lines 32-41: the read loop, 1024 bytes at a time.  A read that returns
    bytes shortens the stream, so [fuel] bounds the number of reads. *)
Fixpoint letter_map_loop (fuel : nat) (letter_frequencies : list Z)
    (stream : bytes) : list Z :=
  match fuel with
  | O => letter_frequencies
  | S fuel' =>
      let '(read_buffer, rest) := read 1024 stream in
      match read_buffer with
      | [] => letter_frequencies
      | _ => letter_map_loop fuel' (fold_left count_letter read_buffer letter_frequencies) rest
      end
  end.

(** [snprintf(output_line, 16, "%c %d\n", 'A' + letter_idx, count)]: at most
    13 bytes for a 32-bit count, so the 16-byte buffer never truncates. *)
Definition output_line (letter_idx : nat) (count : Z) : bytes :=
  ascii_of_nat (65 + letter_idx) :: " "%char :: B (pretty count) ++ [nl].

(** Lines 50-60 and 123-133: one line per letter with a positive count. *)
Definition write_counts (counts : list Z) : bytes :=
  concat (imap (fun letter_idx count =>
                  if 0 <? count then output_line letter_idx count else []) counts).

(** A user function: what it wrote to [fd_out], and its return value,
    [None] for a call that never returns.  A map function gets the user
    data ([None] for NULL) and the bytes behind the descriptor of its split,
    a reduce function the bytes behind its descriptors and their number.
    The tests on NULL arguments and negative descriptors at the head of the
    four functions are kept where [mapreduce()] can make them fail. *)
Definition MAP_FUNC : Type := option bytes -> bytes -> bytes * option Z.
Definition REDUCE_FUNC : Type := list bytes -> Z -> bytes * option Z.

Definition letter_counter_map : MAP_FUNC := fun usr_data split =>
  (write_counts (letter_map_loop (length split) (repeat 0 26) split), Some 0).

(** [isspace] and [isdigit] in the C locale. *)
Definition isspace (c : byte) : bool :=
  let n := N_of_ascii c in ((n =? 32) || ((9 <=? n) && (n <=? 13)))%N.

Definition isdigit (c : byte) : bool :=
  let n := N_of_ascii c in ((48 <=? n) && (n <=? 57))%N.

Fixpoint skip_spaces (s : bytes) : bytes :=
  match s with
  | c :: s' => if isspace c then skip_spaces s' else s
  | [] => []
  end.

Fixpoint read_digits (acc : Z) (s : bytes) : Z :=
  match s with
  | c :: s' => if isdigit c then read_digits (10 * acc + (Z.of_N (N_of_ascii c) - 48)) s' else acc
  | [] => acc
  end.

(** [%d] converts the digits as [strtol] does, into a [long] of 64 bits: a
    value out of its range is replaced by the nearest bound. *)
Definition LONG_MAX : Z := 2 ^ 63 - 1.
Definition LONG_MIN : Z := - 2 ^ 63.

Definition strtol_value (negative : bool) (n : Z) : Z :=
  Z.max LONG_MIN (Z.min LONG_MAX (if negative then - n else n)).

(** The [%d] conversion: optional sign, at least one digit.  The [long]
    is then stored into an [int]. *)
Definition scan_int (s : bytes) : option Z :=
  let '(negative, digits) :=
    match s with
    | c :: s' => if (c =? "-")%char then (true, s')
                 else if (c =? "+")%char then (false, s') else (false, s)
    | [] => (false, s)
    end in
  match digits with
  | d :: _ =>
      if isdigit d then
        let n := read_digits 0 digits in
        Some (wrap_int (strtol_value negative n))
      else None
  | [] => None
  end.

(** [sscanf(line, "%c %d", &letter, &count)]: the return value and the two
    variables; a variable that was not assigned is never read by the caller
    (the test [== 2] comes first). *)
Definition sscanf_letter_count (line : bytes) : Z * byte * Z :=
  match line with
  | [] => (-1, NUL, 0)
  | letter :: rest =>
      match scan_int (skip_spaces rest) with
      | Some count => (2, letter, count)
      | None => (1, letter, 0)
      end
  end.

(** The successive results of [strtok(read_buffer, "\n")] and
    [strtok(NULL, "\n")]: the non-empty runs between newlines. *)
Fixpoint strtok_lines (token s : bytes) : list bytes :=
  match s with
  | [] => match token with [] => [] | _ => [token] end
  | c :: s' =>
      if (c =? nl)%char then
        match token with
        | [] => strtok_lines [] s'
        | _ => token :: strtok_lines [] s'
        end
      else strtok_lines (token ++ [c]) s'
  end.

(** Lines 108-110. *)
Definition add_line (aggregated_counts : list Z) (line : bytes) : list Z :=
  let '(converted, letter, count) := sscanf_letter_count line in
  if (converted =? 2) && (char_val "A" <=? char_val letter)
     && (char_val letter <=? char_val "Z") then
    alter (fun n => wrap_int (n + count)) (Z.to_nat (char_val letter - char_val "A"))
      aggregated_counts
  else aggregated_counts.

(** Lines 100-113: reads of at most 255 bytes, each NUL-terminated and cut
    into lines on its own. *)
Fixpoint letter_reduce_loop (fuel : nat) (aggregated_counts : list Z)
    (stream : bytes) : list Z :=
  match fuel with
  | O => aggregated_counts
  | S fuel' =>
      let '(read_buffer, rest) := read 255 stream in
      match read_buffer with
      | [] => aggregated_counts
      | _ => letter_reduce_loop fuel'
               (fold_left add_line (strtok_lines [] (cstr read_buffer)) aggregated_counts)
               rest
      end
  end.

Definition letter_counter_reduce : REDUCE_FUNC := fun p_fd_in fd_in_num =>
  if fd_in_num <=? 0 then ([], Some (-1))
  else
    (write_counts
       (fold_left (fun counts file => letter_reduce_loop (length file) counts file)
          (take (Z.to_nat fd_in_num) p_fd_in) (repeat 0 26)), Some 0).

(** *** Word finder *)

Fixpoint is_prefix (needle haystack : bytes) : bool :=
  match needle, haystack with
  | [], _ => true
  | c :: needle', d :: haystack' => (c =? d)%char && is_prefix needle' haystack'
  | _ :: _, [] => false
  end.

(** [strstr(haystack, needle)] on C strings: the offset of the first
    occurrence, [None] for NULL. *)
Fixpoint strstr (haystack needle : bytes) : option nat :=
  if is_prefix needle haystack then Some O
  else match haystack with
       | [] => None
       | _ :: haystack' => option_map S (strstr haystack' needle)
       end.

(** Lines 175-177 at offset [found] of [line]; the byte after the last one
    of the C string is its NUL terminator. *)
Definition word_boundaries (line : bytes) (found target_word_len : nat) : bool :=
  match found with
  | O => true
  | S before => match line !! before with
                | Some c => (c =? " ")%char
                | None => false
                end
  end
  && match line !! (found + target_word_len)%nat with
     | Some c => (c =? ",")%char || (c =? ".")%char || (c =? " ")%char
     | None => true
     end.

(** The [while] loop of lines 173-187, from offset [search_ptr]: does the
    line hold the word?  With an empty word the loop can repeat the same
    search forever; running out of [fuel] is that case. *)
Fixpoint search_line (fuel : nat) (line target_word : bytes) (search_ptr : nat)
    : option bool :=
  match fuel with
  | O => None
  | S fuel' =>
      match strstr (drop search_ptr line) target_word with
      | None => Some false
      | Some offset =>
          let found := (search_ptr + offset)%nat in
          if word_boundaries line found (length target_word) then Some true
          else search_line fuel' line target_word (found + length target_word)%nat
      end
  end.

(** [sizeof(read_buffer)] and [sizeof(current_line)] in [word_finder_map]. *)
Definition READ_SIZE : nat := 1024.
Definition LINE_SIZE : nat := 1024.

(** The buffers of [word_finder_map], the bytes written so far, and
    whether the search got caught in its loop. *)
Record finder_state : Type := FinderState {
  current_line : bytes;          (* its first [current_line_len] bytes *)
  original_line_copy : bytes;    (* the whole buffer *)
  finder_out : bytes;
  finder_hung : bool
}.

(** [strcpy(dst, src)] into a buffer that keeps its bytes past the copy. *)
Definition strcpy (dst src : bytes) : bytes :=
  let s := cstr src in s ++ NUL :: drop (S (length s)) dst.

(** Lines 168-188: the line is complete. *)
Definition finder_flush (target_word : bytes) (st : finder_state) : finder_state :=
  let copy := strcpy (original_line_copy st) (current_line st) in
  let line := cstr (current_line st) in
  match search_line (S (length line)) line target_word O with
  | None =>
      {| current_line := current_line st; original_line_copy := copy;
         finder_out := finder_out st; finder_hung := true |}
  | Some matched =>
      {| current_line := [];
         original_line_copy := copy;
         finder_out :=
           if matched then
             finder_out st ++ take (length (current_line st)) copy ++ [nl]
           else finder_out st;
         finder_hung := false |}
  end.

(** Lines 167-191: one byte of the read buffer. *)
Definition finder_byte (target_word : bytes) (st : finder_state) (c : byte)
    : finder_state :=
  if finder_hung st then st
  else if (c =? nl)%char || (length (current_line st) =? LINE_SIZE - 1)%nat then
    finder_flush target_word st
  else
    {| current_line := current_line st ++ [c];
       original_line_copy := original_line_copy st;
       finder_out := finder_out st;
       finder_hung := false |}.

(** Lines 164-193: the read loop. *)
Fixpoint finder_loop (fuel : nat) (target_word : bytes) (st : finder_state)
    (stream : bytes) : finder_state :=
  match fuel with
  | O => st
  | S fuel' =>
      let '(read_buffer, rest) := read READ_SIZE stream in
      match read_buffer with
      | [] => st
      | _ => finder_loop fuel' target_word
               (fold_left (finder_byte target_word) read_buffer st) rest
      end
  end.

(** [stack] is what the uninitialised buffer [original_line_copy] holds on
    entry; [usr_data] is the word, a C string, or [None] for NULL. *)
Definition word_finder_map (stack : bytes) : MAP_FUNC := fun usr_data split =>
  match usr_data with
  | None => ([], Some (-1))
  | Some word =>
      let st := finder_loop (length split) (cstr word)
                  {| current_line := []; original_line_copy := stack;
                     finder_out := []; finder_hung := false |} split in
      (finder_out st, if finder_hung st then None else Some 0)
  end.

(** Lines 238-244: copies one intermediate file, 1024 bytes at a time. *)
Fixpoint finder_reduce_loop (fuel : nat) (output stream : bytes) : bytes :=
  match fuel with
  | O => output
  | S fuel' =>
      let '(read_buffer, rest) := read 1024 stream in
      match read_buffer with
      | [] => output
      | _ => finder_reduce_loop fuel' (output ++ read_buffer) rest
      end
  end.

Definition word_finder_reduce : REDUCE_FUNC := fun input_fds num_input_fds =>
  if num_input_fds <=? 0 then ([], Some (-1))
  else
    (fold_left (fun output file => finder_reduce_loop (length file) output file)
       (take (Z.to_nat num_input_fds) input_fds) [], Some 0).

(** ** The coordinator: [mapreduce()] *)

(** Modelled from the spec: common.h is not among the sources.  The user
    functions document "0 on success, -1 on error", and the coordinator
    compares what they return with [SUCCESS]. *)
Definition SUCCESS : Z := 0.
Definition ERROR : Z := -1.

(** Modelled from the spec: mapreduce.h is not among the sources.
    [MAPREDUCE_SPEC] and [MAPREDUCE_RESULT] have the fields [mapreduce()]
    uses, with the types the spec gives them (JobSpec and JobResult); the
    result's worker list is an array owned by the caller.  A [DATA_SPLIT]
    is a descriptor on the split file and the user data: a map function
    gets the user data and the bytes of the split. *)
Record MAPREDUCE_SPEC : Type := {
  input_data_filepath : string;
  split_num : Z;
  map_func : MAP_FUNC;
  reduce_func : REDUCE_FUNC;
  usr_data : option bytes
}.

Record MAPREDUCE_RESULT : Type := {
  map_worker_pid : list Z;
  reduce_worker_pid : Z
}.

Inductive worker : Type :=
| MapWorker (i : nat)
| ReduceWorker.

(** What the coordinator process does, in program order. *)
Inductive event : Type :=
| EvFork (who : worker) (ret : Z)          (* [fork()] returned [ret] to the parent *)
| EvStore (who : worker) (pid : Z)         (* a write into [*result] *)
| EvWait (pid : Z) (status : option Z)     (* [waitpid(pid, &status, 0)]; [None]: no such child *)
| EvStderr (msg : string).                 (* a diagnostic of the coordinator *)

(** How a child process ends: the files it leaves, its own diagnostics and
    the argument of its [_exit], [None] when it never terminates. *)
Record child_result : Type := {
  cr_fs : gmap string bytes;
  cr_stderr : list string;
  cr_exit : option Z
}.

(** The operating system as the coordinator meets it.
    - [env_fork k live]: what the [k]-th call of [fork] gives the parent
      when [live] are its children not yet waited for: a new process
      identifier, or [None] when the call fails.
    - [env_kill pid]: [Some status] when the child is terminated from
      outside before it does anything; [status] is then what [waitpid]
      reports.  [None] lets the child run its code.
    - [env_uninit]: the indeterminate first value of [worker_exit_status]. *)
Record environment : Type := {
  env_fork : nat -> gset positive -> option positive;
  env_kill : positive -> option Z;
  env_uninit : Z
}.

(** A child that has not been waited for is kept with the status [waitpid]
    will report, [None] for a child that never terminates. *)
Record world : Type := {
  w_fs : gmap string bytes;
  w_children : gmap positive (option Z);
  w_child_stderr : list (positive * string);
  w_forks : nat;
  w_trace : list event
}.

Inductive outcome (A : Type) : Type :=
| Returned (a : A) (w : world)
| Exited (status : Z) (w : world)     (* [exit] was called *)
| Crashed (w : world)                 (* integer division by zero *)
| Blocked (w : world).                (* [waitpid] does not return *)
Arguments Returned {A} a w.
Arguments Exited {A} status w.
Arguments Crashed {A} w.
Arguments Blocked {A} w.

Definition coord (A : Type) : Type := world -> outcome A.

Definition ret {A} (a : A) : coord A := fun w => Returned a w.

Definition bind {A B} (m : coord A) (k : A -> coord B) : coord B := fun w =>
  match m w with
  | Returned a w' => k a w'
  | Exited status w' => Exited status w'
  | Crashed w' => Crashed w'
  | Blocked w' => Blocked w'
  end.

Declare Scope coord_scope.
Delimit Scope coord_scope with coord.
Notation "x <- m ;; k" := (bind m (fun x => k))
  (at level 100, m at next level, right associativity) : coord_scope.
Notation "m ;;; k" := (bind m (fun _ => k))
  (at level 100, right associativity) : coord_scope.

Definition emit (e : event) : coord unit := fun w =>
  Returned tt {| w_fs := w_fs w; w_children := w_children w;
                 w_child_stderr := w_child_stderr w; w_forks := w_forks w;
                 w_trace := w_trace w ++ [e] |}.

(** Modelled from the spec: [EXIT_ERROR(status, format, ...)] of common.h
    prints the diagnostic and terminates the whole process with [status]. *)
Definition EXIT_ERROR {A} (status : Z) (msg : string) : coord A := fun w =>
  Exited status {| w_fs := w_fs w; w_children := w_children w;
                   w_child_stderr := w_child_stderr w; w_forks := w_forks w;
                   w_trace := w_trace w ++ [EvStderr msg] |}.

(** The status word of a child that called [_exit(code)], and the two
    macros of <sys/wait.h> the coordinator applies to it. *)
Definition W_EXITCODE (code : Z) : Z := Z.shiftl (Z.land code 255) 8.
Definition WIFEXITED (status : Z) : bool := Z.land status 127 =? 0.
Definition WEXITSTATUS (status : Z) : Z := Z.shiftr (Z.land status 65280) 8.

(** What becomes of the child [p] started on the files [fs]: the files it
    leaves, the status [waitpid] will report for it ([None]: it never
    terminates) and its diagnostics. *)
Definition run_child (env : environment) (p : positive)
    (child : gmap string bytes -> child_result) (fs : gmap string bytes)
    : gmap string bytes * option Z * list string :=
  match env_kill env p with
  | Some status => (fs, Some status, [])
  | None => let r := child fs in (cr_fs r, W_EXITCODE <$> cr_exit r, cr_stderr r)
  end.

(** [fork()] in the parent.  The child is given by what it does to the file
    system; it touches no file another live process writes, so the model
    lets it run at once. *)
Definition fork (env : environment) (who : worker)
    (child : gmap string bytes -> child_result) : coord Z := fun w =>
  match env_fork env (w_forks w) (dom (w_children w)) with
  | None =>
      Returned (-1)
        {| w_fs := w_fs w; w_children := w_children w;
           w_child_stderr := w_child_stderr w; w_forks := S (w_forks w);
           w_trace := w_trace w ++ [EvFork who (-1)] |}
  | Some p =>
      let '(fs, status, diagnostics) := run_child env p child (w_fs w) in
      Returned (Z.pos p)
        {| w_fs := fs; w_children := <[p := status]> (w_children w);
           w_child_stderr := w_child_stderr w ++ (pair p <$> diagnostics);
           w_forks := S (w_forks w);
           w_trace := w_trace w ++ [EvFork who (Z.pos p)] |}
  end.

(** [waitpid(pid, &worker_exit_status, 0)]: the new value of the variable.
    When [pid] is no child of the caller the call fails and leaves the
    variable as it was; the code does not look at the return value. *)
Definition waitpid (pid : Z) (worker_exit_status : Z) : coord Z := fun w =>
  let no_child :=
    Returned worker_exit_status
      {| w_fs := w_fs w; w_children := w_children w;
         w_child_stderr := w_child_stderr w; w_forks := w_forks w;
         w_trace := w_trace w ++ [EvWait pid None] |} in
  match pid with
  | Z.pos p =>
      match w_children w !! p with
      | Some (Some status) =>
          Returned status
            {| w_fs := w_fs w; w_children := delete p (w_children w);
               w_child_stderr := w_child_stderr w; w_forks := w_forks w;
               w_trace := w_trace w ++ [EvWait pid (Some status)] |}
      | Some None => Blocked w
      | None => no_child
      end
  | _ => no_child
  end.

(** [snprintf(.., 20, "split-%d", i)] and [snprintf(.., 20, "mr-%d.itm", i)];
    an [int] has at most ten digits, so 20 bytes hold the whole name. *)
Definition split_filename (i : nat) : string := "split-" +:+ pretty i.
Definition intermediate_filename (i : nat) : string := "mr-" +:+ pretty i +:+ ".itm".

Definition line_end : string := String nl EmptyString.

(** The diagnostics of lines 108 and 158. *)
Definition fork_failed_msg (who : worker) : string :=
  match who with
  | MapWorker i => "Error: Fork failed for map worker " +:+ pretty i +:+ "." +:+ line_end
  | ReduceWorker => "Error: Fork failed for reduce worker." +:+ line_end
  end.

(** Lines 47-71 on the file system: [fopen(.., "w")] creates or truncates
    split-[i], the loop fills it.  The input is read through its stdio
    stream, here the bytes not yet consumed. *)
Fixpoint split_loop (todo i : nat) (split_size : Z) (stream : bytes)
    (fs : gmap string bytes) : gmap string bytes :=
  match todo with
  | O => fs
  | S todo' =>
      let '(split_file, rest) := copy_records split_size stream in
      split_loop todo' (S i) split_size rest (<[split_filename i := split_file]> fs)
  end.

Definition set_fs (fs : gmap string bytes) : coord unit := fun w =>
  Returned tt {| w_fs := fs; w_children := w_children w;
                 w_child_stderr := w_child_stderr w; w_forks := w_forks w;
                 w_trace := w_trace w |}.

Definition get_fs : coord (gmap string bytes) := fun w => Returned (w_fs w) w.

(** Lines 82-106: the child of the map phase.  [_EXIT_ERROR] is to [_exit]
    what [EXIT_ERROR] is to [exit]: the diagnostic, then the status. *)
Definition map_worker (spec : MAPREDUCE_SPEC) (i : nat) (fs : gmap string bytes)
    : child_result :=
  match fs !! split_filename i with
  | None =>
      {| cr_fs := fs;
         cr_stderr := ["Error: Unable to open split file: " +:+ split_filename i +:+ line_end];
         cr_exit := Some ERROR |}
  | Some split =>
      (* open(.., O_WRONLY | O_CREAT | O_TRUNC, 0666) *)
      let fs := <[intermediate_filename i := []]> fs in
      let '(written, map_status) := map_func spec (usr_data spec) split in
      let fs := <[intermediate_filename i := written]> fs in
      match map_status with
      | None => {| cr_fs := fs; cr_stderr := []; cr_exit := None |}
      | Some map_status =>
          if map_status =? SUCCESS then
            {| cr_fs := fs; cr_stderr := []; cr_exit := Some SUCCESS |}
          else
            {| cr_fs := fs;
               cr_stderr := ["Error: Map function failed for split file: "
                             +:+ split_filename i +:+ line_end];
               cr_exit := Some ERROR |}
      end
  end.

(** Lines 133-138: opens the intermediate files in index order; the name
    of the first one that cannot be opened on the left. *)
Fixpoint open_intermediate (todo i : nat) (fs : gmap string bytes)
    : string + list bytes :=
  match todo with
  | O => inr []
  | S todo' =>
      match fs !! intermediate_filename i with
      | None => inl (intermediate_filename i)
      | Some file =>
          match open_intermediate todo' (S i) fs with
          | inl name => inl name
          | inr files => inr (file :: files)
          end
      end
  end.

(** Lines 126-156: the child of the reduce phase. *)
Definition reduce_worker (spec : MAPREDUCE_SPEC) (total_splits : Z)
    (fs : gmap string bytes) : child_result :=
  match open_intermediate (Z.to_nat total_splits) O fs with
  | inl name =>
      {| cr_fs := fs;
         cr_stderr := ["Error: Unable to open intermediate file: " +:+ name +:+ line_end];
         cr_exit := Some ERROR |}
  | inr intermediate_fds =>
      let fs := <["mr.rst" := []]> fs in
      let '(written, reduce_status) := reduce_func spec intermediate_fds total_splits in
      let fs := <["mr.rst" := written]> fs in
      match reduce_status with
      | None => {| cr_fs := fs; cr_stderr := []; cr_exit := None |}
      | Some reduce_status =>
          if reduce_status =? SUCCESS then
            {| cr_fs := fs; cr_stderr := []; cr_exit := Some SUCCESS |}
          else
            {| cr_fs := fs;
               cr_stderr := ["Error: Reduce function execution failed." +:+ line_end];
               cr_exit := Some ERROR |}
      end
  end.

Local Open Scope coord_scope.

(** Lines 80-113: the spawn loop, from index [i], [todo] workers to go. *)
Fixpoint spawn_loop (env : environment) (spec : MAPREDUCE_SPEC) (todo i : nat)
    (map_worker_pids : list Z) (result : MAPREDUCE_RESULT)
    : coord (list Z * MAPREDUCE_RESULT) :=
  match todo with
  | O => ret (map_worker_pids, result)
  | S todo' =>
      pid <- fork env (MapWorker i) (map_worker spec i) ;;
      let map_worker_pids := <[i := pid]> map_worker_pids in
      if pid <? 0 then
        EXIT_ERROR ERROR (fork_failed_msg (MapWorker i))
      else
        emit (EvStore (MapWorker i) pid) ;;;
        spawn_loop env spec todo' (S i) map_worker_pids
          {| map_worker_pid := <[i := pid]> (map_worker_pid result);
             reduce_worker_pid := reduce_worker_pid result |}
  end.

(** Lines 118-120 and 165-167. *)
Definition failed (worker_exit_status : Z) : bool :=
  WIFEXITED worker_exit_status && negb (WEXITSTATUS worker_exit_status =? SUCCESS).

Definition map_failed_msg (i : nat) : string :=
  "Error: Map worker " +:+ pretty i +:+ " failed." +:+ line_end.

Definition reduce_failed_msg : string :=
  "Error: Reduce worker execution failed." +:+ line_end.

(** Lines 116-121: the barrier; the result is the last value of
    [worker_exit_status]. *)
Fixpoint wait_loop (todo i : nat) (map_worker_pids : list Z) (worker_exit_status : Z)
    : coord Z :=
  match todo with
  | O => ret worker_exit_status
  | S todo' =>
      worker_exit_status <- waitpid (map_worker_pids !!! i) worker_exit_status ;;
      (if failed worker_exit_status then emit (EvStderr (map_failed_msg i)) else ret tt) ;;;
      wait_loop todo' (S i) map_worker_pids worker_exit_status
  end.

(** Lines 124-167: the reduce worker and the wait for it. *)
Definition reduce_phase (env : environment) (spec : MAPREDUCE_SPEC)
    (worker_exit_status : Z) (result : MAPREDUCE_RESULT) : coord MAPREDUCE_RESULT :=
  reduce_worker_pid <- fork env ReduceWorker (reduce_worker spec (split_num spec)) ;;
  if reduce_worker_pid <? 0 then
    EXIT_ERROR ERROR (fork_failed_msg ReduceWorker)
  else
    emit (EvStore ReduceWorker reduce_worker_pid) ;;;
    let result := {| map_worker_pid := map_worker_pid result;
                     reduce_worker_pid := reduce_worker_pid |} in
    worker_exit_status <- waitpid reduce_worker_pid worker_exit_status ;;
    (if failed worker_exit_status then emit (EvStderr reduce_failed_msg) else ret tt) ;;;
    ret result.

(** [mapreduce(spec, result)]; [None] is a NULL pointer.  The two calls of
    [gettimeofday] and [processing_time] are left out.  A negative
    [split_num] makes the size given to [malloc] exceed the address space;
    other allocation failures, and failures to create a file, are not
    modelled.  The input file is taken to be none of the files the job
    creates: its bytes are those it had when it was opened. *)
Definition mapreduce (env : environment) (spec : option MAPREDUCE_SPEC)
    (result : option MAPREDUCE_RESULT) : coord MAPREDUCE_RESULT :=
  match spec, result with
  | Some spec, Some result =>
      let total_splits := split_num spec in
      fs <- get_fs ;;
      match fs !! input_data_filepath spec with
      | None =>
          EXIT_ERROR ERROR ("Error: Unable to open input file: "
                            +:+ input_data_filepath spec +:+ line_end)
      | Some input_file =>
          let input_file_size := Z.of_nat (length input_file) in
          if total_splits =? 0 then Crashed
          else
            let split_size := input_file_size ÷ total_splits in
            if total_splits <? 0 then
              EXIT_ERROR ERROR ("Error: Memory allocation failed for file name arrays."
                                +:+ line_end)
            else
              let n := Z.to_nat total_splits in
              set_fs (split_loop n O split_size input_file fs) ;;;
              spawned <- spawn_loop env spec n O (replicate n (env_uninit env)) result ;;
              let '(map_worker_pids, result) := spawned in
              worker_exit_status <- wait_loop n O map_worker_pids (env_uninit env) ;;
              reduce_phase env spec worker_exit_status result
      end
  | _, _ => EXIT_ERROR ERROR ("Error: 'spec' or 'result' is NULL." +:+ line_end)
  end.

Local Close Scope coord_scope.

(** *** Vocabulary for the coordinator's properties *)

(** The operating system never hands out the identifier of a child that has
    not been waited for. *)
Definition os_sound (env : environment) : Prop :=
  forall k live p, env_fork env k live = Some p -> p ∉ live.

(** The user functions of the job return when they are called as its
    workers call them: the map function with the user data of the job, on
    any split, the reduce function with the split count of the job, on any
    intermediate files. *)
Definition terminating (spec : MAPREDUCE_SPEC) : Prop :=
  (forall split, is_Some (map_func spec (usr_data spec) split).2)
  /\ (forall files, is_Some (reduce_func spec files (split_num spec)).2).

(** Every child not yet waited for terminates. *)
Definition no_hang (w : world) : Prop :=
  map_Forall (fun _ status => is_Some status) (w_children w).

Definition forks_succeed (env : environment) : Prop :=
  forall k live, is_Some (env_fork env k live).

Definition nobody_killed (env : environment) : Prop :=
  forall p, env_kill env p = None.

(** The files after the map workers [i], [i+1], ... ran one after the other,
    and whether each of them exited. *)
Fixpoint map_phase (spec : MAPREDUCE_SPEC) (todo i : nat) (fs : gmap string bytes)
    : gmap string bytes * bool :=
  match todo with
  | O => (fs, true)
  | S todo' =>
      let r := map_worker spec i fs in
      let '(fs', exited) := map_phase spec todo' (S i) (cr_fs r) in
      (fs', match cr_exit r with Some _ => exited | None => false end)
  end.

(** The data flow of [mapreduce()]: the files a job leaves when every
    [fork] succeeds and every worker runs to its [_exit]. *)
Definition pipeline (spec : MAPREDUCE_SPEC) (fs : gmap string bytes)
    : option (gmap string bytes) :=
  match fs !! input_data_filepath spec with
  | None => None
  | Some input_file =>
      let n := Z.to_nat (split_num spec) in
      let split_size := Z.of_nat (length input_file) ÷ split_num spec in
      let '(fs, exited) := map_phase spec n O (split_loop n O split_size input_file fs) in
      let r := reduce_worker spec (split_num spec) fs in
      match cr_exit r with
      | Some _ => if exited then Some (cr_fs r) else None
      | None => None
      end
  end.

(** A file among those a job leaves. *)
Definition pipeline_file (spec : MAPREDUCE_SPEC) (fs : gmap string bytes)
    (name : string) : option bytes :=
  match pipeline spec fs with
  | Some fs' => fs' !! name
  | None => None
  end.

(** The world after the coordinator did [es]. *)
Definition log (w : world) (es : list event) : world :=
  {| w_fs := w_fs w; w_children := w_children w;
     w_child_stderr := w_child_stderr w; w_forks := w_forks w;
     w_trace := w_trace w ++ es |}.

(** The world a run ends in, and the status it exits with, if it does. *)
Definition outcome_world {A} (o : outcome A) : world :=
  match o with
  | Returned _ w | Exited _ w | Crashed w | Blocked w => w
  end.

Definition exit_status {A} (o : outcome A) : option Z :=
  match o with
  | Exited status _ => Some status
  | _ => None
  end.

Definition returned {A} (o : outcome A) : bool :=
  match o with
  | Returned _ _ => true
  | _ => false
  end.

(** The trace of the spawn loop when [fork] returns [pids], from index [i]:
    each identifier is stored right after the call that returned it. *)
Fixpoint spawn_events (i : nat) (pids : list Z) : list event :=
  match pids with
  | [] => []
  | pid :: pids' =>
      EvFork (MapWorker i) pid :: EvStore (MapWorker i) pid :: spawn_events (S i) pids'
  end.

(** The trace of the barrier over the workers [waits], each with what
    [waitpid] reported for it, from index [i]. *)
Fixpoint barrier_events (i : nat) (waits : list (Z * option Z)) (worker_exit_status : Z)
    : list event :=
  match waits with
  | [] => []
  | (pid, reported) :: waits' =>
      let worker_exit_status := default worker_exit_status reported in
      EvWait pid reported
        :: (if failed worker_exit_status then [EvStderr (map_failed_msg i)] else [])
        ++ barrier_events (S i) waits' worker_exit_status
  end.

Fixpoint barrier_status (waits : list (Z * option Z)) (worker_exit_status : Z) : Z :=
  match waits with
  | [] => worker_exit_status
  | (_, reported) :: waits' => barrier_status waits' (default worker_exit_status reported)
  end.

(** The trace of the reduce phase. *)
Definition reduce_events (pid : Z) (status : Z) : list event :=
  [EvFork ReduceWorker pid; EvStore ReduceWorker pid; EvWait pid (Some status)]
  ++ (if failed status then [EvStderr reduce_failed_msg] else []).

(** The calls that synchronise the coordinator with its workers. *)
Definition is_sync (e : event) : bool :=
  match e with
  | EvFork _ _ | EvWait _ _ => true
  | _ => false
  end.

(** The synchronising calls of a job with [N] splits, as far as it got:
    the forks of map workers 0, 1, ... in index order; then, only once all
    [N] are forked, the waits, on the identifiers the forks returned and in
    that order; then, only once all [N] are waited for, the fork of the
    reduce worker and the wait for it.  A [complete] job did all of it. *)
Definition barrier_shape (N : nat) (complete : bool) (sync : list event) : Prop :=
  exists (pids : list Z) (reported : list (option Z)) (pr sr : Z)
         (reduce_sync : list event),
    sync = imap (fun i pid => EvFork (MapWorker i) pid) pids
           ++ zip_with EvWait pids reported ++ reduce_sync
    /\ (length reported <= length pids <= N)%nat
    /\ (reported <> [] -> length pids = N)
    /\ (reduce_sync <> [] -> length pids = N /\ length reported = N)
    /\ reduce_sync `prefix_of` [EvFork ReduceWorker pr; EvWait pr (Some sr)]
    /\ (complete = true ->
        length pids = N /\ length reported = N
        /\ reduce_sync = [EvFork ReduceWorker pr; EvWait pr (Some sr)]).

(** The diagnostics of the coordinator, in the order it printed them. *)
Definition diagnostics (t : list event) : list string :=
  omap (fun e => match e with EvStderr msg => Some msg | _ => None end) t.

(** The diagnostics of the barrier for workers that ended with [statuses],
    from index [i]: one for each worker that failed, in index order. *)
Fixpoint failed_msgs (i : nat) (statuses : list Z) : list string :=
  match statuses with
  | [] => []
  | status :: statuses' =>
      (if failed status then [map_failed_msg i] else []) ++ failed_msgs (S i) statuses'
  end.

(** An environment in which every [fork] succeeds and no child is killed,
    an empty process table, and the two jobs of the repository. *)
Definition env0 : environment :=
  {| env_fork := fun _ live => Some (fresh live);
     env_kill := fun _ => None;
     env_uninit := 0 |}.

(** The same, except that the child with identifier 2 is killed by signal
    9 before it does anything. *)
Definition env_sigkill : environment :=
  {| env_fork := fun _ live => Some (fresh live);
     env_kill := fun p => if (p =? 2)%positive then Some 9 else None;
     env_uninit := 0 |}.

(** An environment in which every child is killed by signal 9 before it
    does anything. *)
Definition env_killall : environment :=
  {| env_fork := fun _ live => Some (fresh live);
     env_kill := fun _ => Some 9;
     env_uninit := 0 |}.

(** An environment in which the second call of [fork] fails. *)
Definition env_fork_fails : environment :=
  {| env_fork := fun k live => if (k =? 1)%nat then None else Some (fresh live);
     env_kill := fun _ => None;
     env_uninit := 0 |}.

Definition boot (fs : gmap string bytes) : world :=
  {| w_fs := fs; w_children := ∅; w_child_stderr := []; w_forks := O; w_trace := [] |}.

Definition letter_counter_job (path : string) (n : Z) : MAPREDUCE_SPEC :=
  {| input_data_filepath := path; split_num := n;
     map_func := letter_counter_map; reduce_func := letter_counter_reduce;
     usr_data := None |}.

Definition word_finder_job (stack : bytes) (path : string) (n : Z) (word : bytes)
    : MAPREDUCE_SPEC :=
  {| input_data_filepath := path; split_num := n;
     map_func := word_finder_map stack; reduce_func := word_finder_reduce;
     usr_data := Some word |}.

(** The word finder started without a word: the user data is NULL. *)
Definition word_finder_job_without_word (stack : bytes) (path : string) (n : Z)
    : MAPREDUCE_SPEC :=
  {| input_data_filepath := path; split_num := n;
     map_func := word_finder_map stack; reduce_func := word_finder_reduce;
     usr_data := None |}.

Definition letters_input : bytes := B "AAAB" ++ [nl] ++ B "BBCC" ++ [nl].

Definition letters_fs : gmap string bytes := {[ "input.txt" := letters_input ]}.

Definition words_input : bytes := B "the cat sat" ++ [nl] ++ B "concatenate" ++ [nl].

Definition words_fs : gmap string bytes := {[ "input.txt" := words_input ]}.

Definition result0 : MAPREDUCE_RESULT :=
  {| map_worker_pid := [0; 0]; reduce_worker_pid := 0 |}.

(** *** Vocabulary for further properties *)

(** The byte [c] is the letter of index [letter_idx] (0 for A, 25 for Z),
    in upper or in lower case. *)
Definition is_letter (letter_idx : nat) (c : byte) : bool :=
  (c =? ascii_of_nat (65 + letter_idx))%char || (c =? ascii_of_nat (97 + letter_idx))%char.

(** How often the letter of index [letter_idx] occurs in [s], in either
    case, and the 26 numbers for A to Z. *)
Definition occurrences (letter_idx : nat) (s : bytes) : Z :=
  Z.of_nat (length (List.filter (is_letter letter_idx) s)).

Definition letter_counts (s : bytes) : list Z :=
  (fun letter_idx => occurrences letter_idx s) <$> seq 0 26.

(** The sums, letter by letter, of the counts of several files. *)
Definition totals (counts_of_files : list (list Z)) : list Z :=
  foldr (zip_with Z.add) (repeat 0 26) counts_of_files.

(** Counts as [write_counts] gets them from a map worker whose file the
    reduce worker reads in one piece. *)
Definition short_counts (counts : list Z) : Prop :=
  length counts = 26%nat /\ Forall (Z.le 0) counts
  /\ (length (write_counts counts) <= 255)%nat.

(** The word stands at offset [pos] of the line, between the neighbours
    lines 175-177 ask for. *)
Definition occurs_at (word line : bytes) (pos : nat) : bool :=
  is_prefix word (drop pos line) && word_boundaries line pos (length word).

(** The word stands somewhere in the line as a whole word. *)
Definition whole_word_in (word line : bytes) : bool :=
  existsb (occurs_at word line) (seq 0 (S (length line))).


(** The input made of the given lines, each with its newline. *)
Definition unlines (lines : list bytes) : bytes :=
  concat ((fun line => line ++ [nl]) <$> lines).


(** The computation [m] does not change the file [name]. *)
Definition keeps_file {A} (name : string) (m : coord A) : Prop :=
  forall w, w_fs (outcome_world (m w)) !! name = w_fs w !! name.

(** Whether a user function returned, and returned [SUCCESS]. *)
Definition returns_success (status : option Z) : bool :=
  match status with
  | Some status => status =? SUCCESS
  | None => false
  end.

Example fgets_example :
  fgets 1024 (B "ab" ++ [nl] ++ B "cd") = Some (B "ab" ++ [nl], B "cd").
Proof. reflexivity. Qed.

Example partition_example :
  partition (B "AAAB" ++ [nl] ++ B "BBCC" ++ [nl]) 2
  = [B "AAAB" ++ [nl]; B "BBCC" ++ [nl]].
Proof. reflexivity. Qed.

Example letter_map_example :
  letter_counter_map None (B "AAAB" ++ [nl])
  = (B "A 3" ++ [nl] ++ B "B 1" ++ [nl], Some 0).
Proof. vm_compute. reflexivity. Qed.

Example letter_reduce_example :
  letter_counter_reduce [B "A 3" ++ [nl] ++ B "B 1" ++ [nl]; B "B 2" ++ [nl] ++ B "C 2" ++ [nl]] 2
  = (B "A 3" ++ [nl] ++ B "B 3" ++ [nl] ++ B "C 2" ++ [nl], Some 0).
Proof. vm_compute. reflexivity. Qed.

(** A number beyond the range of a [long] is read as [LONG_MAX], whose low
    32 bits are -1; one within it loses its high bits. *)
Example scan_int_out_of_range :
  scan_int (B "99999999999999999999") = Some (-1)
  /\ scan_int (B "4294967298") = Some 2
  /\ scan_int (B "-17") = Some (-17).
Proof. split_and!; vm_compute; reflexivity. Qed.

Example finder_example stack :
  word_finder_map stack (Some (B "cat")) (B "the cat sat" ++ [nl] ++ B "concatenate" ++ [nl])
  = (B "the cat sat" ++ [nl], Some 0).
Proof. vm_compute. reflexivity. Qed.

(** * Properties *)

(** ** The partitioner *)

Lemma cstr_no_nul s : no_nul s = true -> cstr s = s.
Proof.
  induction s as [|c s IH]; simpl; [done|].
  intros [Hc Hs]%andb_prop. destruct (c =? NUL)%char; [done|].
  by rewrite IH.
Qed.

Lemma no_nul_app s t : no_nul (s ++ t) = no_nul s && no_nul t.
Proof. apply forallb_app. Qed.

Lemma fgets_store_app room s buffer rest :
  fgets_store room s = (buffer, rest) -> s = buffer ++ rest.
Proof.
  revert s buffer rest. induction room as [|room IH]; intros [|c s] buffer rest; simpl;
    try (intros [= <- <-]; done).
  destruct (c =? nl)%char; [by intros [= <- <-]|].
  destruct (fgets_store room s) as [b r] eqn:E. intros [= <- <-].
  simpl. f_equal. by apply IH.
Qed.

(** A record that fits is read by one call, newline included, unless the
    file ends first. *)
Lemma fgets_store_record cap left room s buffer rest :
  fits cap left s = true -> (left <= room)%nat ->
  fgets_store room s = (buffer, rest) ->
  (last buffer = Some nl /\ fits cap cap rest = true) \/ rest = [].
Proof.
  revert left room buffer rest.
  induction s as [|c s IH]; intros left room buffer rest Hfit Hle.
  - destruct room; simpl; intros [= <- <-]; by right.
  - simpl in Hfit. destruct left as [|left]; [done|].
    destruct room as [|room]; [lia|]. simpl.
    destruct (c =? nl)%char eqn:Hc.
    + intros [= <- <-]. left. apply Ascii.eqb_eq in Hc as ->. done.
    + destruct (fgets_store room s) as [b r] eqn:E. intros [= <- <-].
      destruct (IH left room b r Hfit ltac:(lia) E) as [[Hl Hf]|Hr]; [left|by right].
      split; [|done]. rewrite last_cons, Hl. done.
Qed.

Lemma fgets_store_nonempty room c s buffer rest :
  fgets_store (S room) (c :: s) = (buffer, rest) -> buffer <> [].
Proof.
  simpl. destruct (c =? nl)%char; [by intros [= <- <-]|].
  destruct (fgets_store room s). by intros [= <- <-].
Qed.

Lemma fgets_None size stream : fgets size stream = None <-> stream = [].
Proof. by destruct stream. Qed.

(** One call of [fgets] on a text file whose stream is at the start of a
    record. *)
Lemma fgets_record stream buffer rest :
  fits (BUFFER_SIZE - 1) (BUFFER_SIZE - 1) stream = true ->
  fgets BUFFER_SIZE stream = Some (buffer, rest) ->
  stream = buffer ++ rest /\ buffer <> []
  /\ ((last buffer = Some nl /\ fits (BUFFER_SIZE - 1) (BUFFER_SIZE - 1) rest = true)
      \/ rest = []).
Proof.
  intros Hfit. unfold fgets. destruct stream as [|c stream]; [done|].
  intros E. apply (inj Some) in E.
  split; [exact (fgets_store_app _ _ _ _ E)|]. split.
  - change (BUFFER_SIZE - 1)%nat with (S (BUFFER_SIZE - 2)) in E.
    exact (fgets_store_nonempty _ _ _ _ _ E).
  - exact (fgets_store_record _ _ _ _ _ _ Hfit (le_n (BUFFER_SIZE - 1)) E).
Qed.

(** The loop of lines 61-64 on a text file: it appends whole records
    [copied] to the split file, and stops with the threshold reached or the
    input exhausted. *)
Lemma copy_loop_spec fuel split_size bytes_read split_file stream out rest :
  no_nul stream = true ->
  fits (BUFFER_SIZE - 1) (BUFFER_SIZE - 1) stream = true ->
  (length stream <= fuel)%nat ->
  copy_loop fuel split_size bytes_read split_file stream = (out, rest) ->
  exists copied,
    out = split_file ++ copied /\ stream = copied ++ rest
    /\ (whole_records copied \/ rest = [])
    /\ no_nul rest = true
    /\ fits (BUFFER_SIZE - 1) (BUFFER_SIZE - 1) rest = true
    /\ (split_size <= bytes_read + Z.of_nat (length copied) \/ rest = []).
Proof.
  revert bytes_read split_file stream.
  induction fuel as [|fuel IH]; intros bytes_read split_file stream Hnul Hfit Hlen.
  - destruct stream; [|simpl in Hlen; lia]. cbn [copy_loop]. intros [= <- <-].
    exists []. rewrite app_nil_r. repeat split; auto.
  - cbn [copy_loop]. destruct (bytes_read <? split_size) eqn:Hlt.
    2:{ intros [= <- <-]. exists []. rewrite app_nil_r.
        repeat split; auto; [by left; left | left; simpl; lia]. }
    destruct (fgets BUFFER_SIZE stream) as [[buffer rest1]|] eqn:E.
    2:{ apply fgets_None in E as ->. intros [= <- <-]. exists [].
        rewrite app_nil_r. repeat split; auto. }
    destruct (fgets_record _ _ _ Hfit E) as (Happ & Hbuf & Hrec).
    rewrite Happ, no_nul_app in Hnul. apply andb_prop in Hnul as [Hnb Hnr].
    assert (Hfr : fits (BUFFER_SIZE - 1) (BUFFER_SIZE - 1) rest1 = true).
    { destruct Hrec as [[_ ?]| ->]; done. }
    assert (Hl1 : (length rest1 <= fuel)%nat).
    { rewrite Happ, length_app in Hlen. destruct buffer; [done|]. simpl in Hlen. lia. }
    intros Hloop. unfold fputs, strlen in Hloop. rewrite (cstr_no_nul _ Hnb) in Hloop.
    destruct (IH _ _ _ Hnr Hfr Hl1 Hloop) as (copied & -> & Hst & Hwhole & Hn & Hf & Hsize).
    exists (buffer ++ copied). rewrite Happ, Hst, length_app, !app_assoc.
    split; [done|]. split; [done|]. split; [|split; [done|split; [done|]]].
    + destruct Hwhole as [[Hc | Hlast] | Hr]; [|left; right|by right].
      * subst copied. rewrite app_nil_r. simpl in Hst. subst rest1.
        destruct Hrec as [[? _]|?]; [left; by right | by right].
      * rewrite last_app, Hlast. done.
    + destruct Hsize as [?|?]; [left; lia | by right].
Qed.

Lemma copy_records_spec split_size stream split_file rest :
  no_nul stream = true ->
  fits (BUFFER_SIZE - 1) (BUFFER_SIZE - 1) stream = true ->
  copy_records split_size stream = (split_file, rest) ->
  stream = split_file ++ rest
  /\ (whole_records split_file \/ rest = [])
  /\ no_nul rest = true
  /\ fits (BUFFER_SIZE - 1) (BUFFER_SIZE - 1) rest = true
  /\ (split_size <= Z.of_nat (length split_file) \/ rest = []).
Proof.
  intros Hnul Hfit Hcopy.
  destruct (copy_loop_spec _ _ _ _ _ _ _ Hnul Hfit (le_n _) Hcopy)
    as (copied & -> & ? & ? & ? & ? & ?).
  simpl. repeat split; auto.
Qed.

Lemma split_files_length todo split_size stream :
  length (split_files todo split_size stream) = todo.
Proof.
  revert stream. induction todo as [|todo IH]; intros stream; simpl; [done|].
  destruct (copy_records split_size stream). simpl. by rewrite IH.
Qed.

(** Lines 47-71 on a text file: the split files are consecutive pieces of
    the input, every cut between two of them is a record boundary, and a
    split file is below the threshold only when nothing is left to read. *)
Lemma split_files_spec todo split_size stream :
  no_nul stream = true ->
  fits (BUFFER_SIZE - 1) (BUFFER_SIZE - 1) stream = true ->
  let parts := split_files todo split_size stream in
  exists rest,
    stream = concat parts ++ rest
    /\ (forall i, record_boundary (concat (take i parts)) (concat (drop i parts) ++ rest))
    /\ (forall i s, parts !! i = Some s ->
          split_size <= Z.of_nat (length s) \/ concat (drop (S i) parts) ++ rest = []).
Proof.
  revert stream. induction todo as [|todo IH]; intros stream Hnul Hfit; simpl.
  - exists stream. repeat split; [|done].
    intros i. left. by destruct i.
  - destruct (copy_records split_size stream) as [s0 rest0] eqn:E.
    destruct (copy_records_spec _ _ _ _ Hnul Hfit E) as (Hst & Hwhole & Hn & Hf & Hsize).
    destruct (IH rest0 Hn Hf) as (rest & Hrest & Hcuts & Hsizes).
    exists rest. simpl. split; [by rewrite <- app_assoc, <- Hrest|]. split.
    + intros [|i]; [by left|]. simpl.
      set (before := concat (take i (split_files todo split_size rest0))) in *.
      set (after := concat (drop i (split_files todo split_size rest0)) ++ rest) in *.
      assert (Hsplit : rest0 = before ++ after).
      { unfold before, after. rewrite app_assoc, <- concat_app, take_drop. done. }
      destruct (Hcuts i) as [Hb | [Hb | Ha]]; fold before after in Hb || fold after in Ha.
      * rewrite Hb, app_nil_r. rewrite Hb in Hsplit. simpl in Hsplit.
        destruct Hwhole as [[-> | Hl] | Hr]; [by left | right; by left |].
        right; right. congruence.
      * right; left. rewrite last_app, Hb. done.
      * right; by right.
    + intros [|i] s; simpl.
      * intros [= <-]. rewrite drop_0, <- Hrest. done.
      * apply Hsizes.
Qed.

(** C1 (as amended).  On a text file (no NUL byte, every record at most
    1023 bytes with its newline) every split file, the last one included,
    is a piece of the input that starts and ends on a record boundary, so
    it holds whole records only; it holds at least floor(totalBytes/N)
    bytes unless the input is exhausted, in which case it holds all that
    was left. *)
Theorem partition_whole_records (input : bytes) (N i : nat) (s : bytes) :
  text_file input = true ->
  partition input N !! i = Some s ->
  let before := concat (take i (partition input N)) in
  exists after,
    input = before ++ s ++ after
    /\ record_boundary before (s ++ after)
    /\ record_boundary (before ++ s) after
    /\ (Z.of_nat (length input) / Z.of_nat N <= Z.of_nat (length s) \/ after = []).
Proof.
  intros [Hnul Hfit]%andb_prop Hi before. subst before. unfold partition in *.
  set (split_size := Z.of_nat (length input) ÷ Z.of_nat N) in *.
  destruct (split_files_spec N split_size input Hnul Hfit) as (rest & Hin & Hcuts & Hsizes).
  set (parts := split_files N split_size input) in *.
  exists (concat (drop (S i) parts) ++ rest).
  assert (Hmid : take i parts ++ s :: drop (S i) parts = parts)
    by (by apply take_drop_middle).
  repeat split.
  - rewrite Hin at 1. rewrite <- Hmid at 1.
    rewrite concat_app, concat_cons, <- !app_assoc. done.
  - specialize (Hcuts i). by rewrite (drop_S _ _ _ Hi), concat_cons, <- app_assoc in Hcuts.
  - specialize (Hcuts (S i)). by rewrite (take_S_r _ _ _ Hi), concat_app, concat_cons,
      concat_nil, app_nil_r in Hcuts.
  - assert (0 < N)%nat.
    { apply lookup_lt_Some in Hi. unfold parts in Hi.
      rewrite split_files_length in Hi. lia. }
    destruct (Hsizes i s Hi) as [Hs|?]; [left|by right].
    unfold split_size in Hs. rewrite Z.quot_div_nonneg in Hs; lia.
Qed.

Lemma partition_whole_records_witness :
  let input := B "AAAB" ++ [nl] ++ B "BBCC" ++ [nl] in
  let s := B "AAAB" ++ [nl] in
  text_file input = true
  /\ partition input 2 !! 0%nat = Some s
  /\ exists after,
       input = concat (take 0 (partition input 2)) ++ s ++ after
       /\ record_boundary (concat (take 0 (partition input 2))) (s ++ after)
       /\ record_boundary (concat (take 0 (partition input 2)) ++ s) after
       /\ (Z.of_nat (length input) / Z.of_nat 2 <= Z.of_nat (length s) \/ after = []).
Proof.
  split; [reflexivity|]. split; [reflexivity|].
  apply (partition_whole_records (B "AAAB" ++ [nl] ++ B "BBCC" ++ [nl]) 2 0
           (B "AAAB" ++ [nl])); reflexivity.
Defined.

(** C1 as stated fails, in each of its two halves.
    - Thirteen bytes in three splits: the threshold is 4, split-0 takes
      both records (the second one is read because 2 < 4), and split-1, one
      of the splits 0..N-2, is left with no byte at all.
    - One record of 1101 bytes in two splits: [fgets] hands over its first
      1023 bytes, the threshold of 550 is passed, and split-0 ends inside
      the record.
    - A NUL byte in a record: [fputs] and [strlen] stop at it, and split-0
      ends with the six bytes before it. *)
Lemma partition_split_short_or_cut :
  (let input := B "a" ++ [nl] ++ B "bbbbbbbbbb" ++ [nl] in
   partition input 3 = [input; []; []]
   /\ exists s, partition input 3 !! 1%nat = Some s
        /\ ~ (Z.of_nat (length input) / 3 <= Z.of_nat (length s)))
  /\ (let input := repeat "x"%char 1100 ++ [nl] in
      partition input 2 !! 0%nat = Some (repeat "x"%char 1023)
      /\ ~ whole_records (repeat "x"%char 1023))
  /\ (let input := B "abcdef" ++ [NUL] ++ B "gh" ++ [nl] ++ B "xy" ++ [nl] in
      partition input 2 = [B "abcdef"; B "xy" ++ [nl]]
      /\ ~ whole_records (B "abcdef")).
Proof.
  split; [|split]; cbv zeta; split.
  - reflexivity.
  - exists []. split; [reflexivity|]. vm_compute. intros H. apply H. reflexivity.
  - vm_compute. reflexivity.
  - intros [H | H]; vm_compute in H; discriminate H.
  - reflexivity.
  - intros [H | H]; vm_compute in H; discriminate H.
Qed.

(** C2 (as amended).  On a text file the split files, concatenated in index
    order, are a prefix of the input: nothing is duplicated or reordered.
    Every cut between two consecutive split files, and the end of the
    prefix, is a record boundary: no record lies across two splits, and
    what is left out starts with a whole record. *)
Theorem partition_prefix (input : bytes) (N : nat) :
  text_file input = true ->
  let parts := partition input N in
  exists rest,
    input = concat parts ++ rest
    /\ record_boundary (concat parts) rest
    /\ forall i, record_boundary (concat (take i parts)) (concat (drop i parts) ++ rest).
Proof.
  intros [Hnul Hfit]%andb_prop parts. subst parts. unfold partition.
  set (split_size := Z.of_nat (length input) ÷ Z.of_nat N).
  destruct (split_files_spec N split_size input Hnul Hfit) as (rest & Hin & Hcuts & _).
  exists rest. split; [done|]. split; [|done].
  specialize (Hcuts N).
  rewrite take_ge, drop_ge in Hcuts by (rewrite split_files_length; lia). done.
Qed.

Lemma partition_prefix_witness :
  let input := B "a" ++ [nl] ++ B "bb" ++ [nl] ++ B "c" ++ [nl] in
  text_file input = true
  /\ exists rest,
       input = concat (partition input 2) ++ rest
       /\ record_boundary (concat (partition input 2)) rest
       /\ forall i, record_boundary (concat (take i (partition input 2)))
                      (concat (drop i (partition input 2)) ++ rest).
Proof.
  split; [reflexivity|].
  apply (partition_prefix (B "a" ++ [nl] ++ B "bb" ++ [nl] ++ B "c" ++ [nl]) 2).
  reflexivity.
Defined.

(** C2 as stated fails.
    - One record of 1101 bytes in two splits: [fgets] hands over its first
      1023 bytes, which already exceed the threshold of 550, so split-0
      ends inside the record and split-1 holds its end.
    - A NUL byte in the input: [fputs] and [strlen] stop at it, the rest of
      what [fgets] read is written nowhere, and the split is no prefix of
      the input. *)
Lemma partition_cuts_long_record :
  (let input := repeat "x"%char 1100 ++ [nl] in
   partition input 2 = [repeat "x"%char 1023; repeat "x"%char 77 ++ [nl]]
   /\ ~ record_boundary (repeat "x"%char 1023) (repeat "x"%char 77 ++ [nl]))
  /\ (let input := B "a" ++ [NUL] ++ B "b" ++ [nl] ++ B "c" ++ [nl] in
      partition input 1 = [B "ac" ++ [nl]]
      /\ ~ exists rest, input = concat (partition input 1) ++ rest).
Proof.
  split; cbv zeta; split.
  - vm_compute. reflexivity.
  - intros [H | [H | H]]; vm_compute in H; discriminate H.
  - reflexivity.
  - intros [rest H]. vm_compute in H. discriminate H.
Qed.

(** ** The loops run to completion

    The loops that read a file are written with a bound on the number of
    iterations.  The bound each caller passes is never reached before the
    file is exhausted: more fuel changes nothing. *)

Lemma fgets_shorter size stream buffer rest :
  (2 <= size)%nat -> fgets size stream = Some (buffer, rest) ->
  (length rest < length stream)%nat.
Proof.
  intros Hsize. unfold fgets. destruct stream as [|c stream]; [done|].
  intros H. apply (inj Some) in H.
  destruct size as [|[|size]]; [lia|lia|].
  replace (S (S size) - 1)%nat with (S size) in H by lia.
  pose proof (fgets_store_app _ _ _ _ H) as Happ.
  pose proof (fgets_store_nonempty _ _ _ _ _ H) as Hne.
  rewrite Happ, length_app. destruct buffer; [done|]. simpl. lia.
Qed.

Lemma copy_loop_fuel fuel1 : forall fuel2 split_size bytes_read split_file stream,
  (length stream <= fuel1)%nat -> (length stream <= fuel2)%nat ->
  copy_loop fuel1 split_size bytes_read split_file stream
  = copy_loop fuel2 split_size bytes_read split_file stream.
Proof.
  induction fuel1 as [|fuel1 IH]; intros fuel2 split_size bytes_read split_file stream H1 H2.
  - destruct stream; [|simpl in H1; lia]. destruct fuel2; [done|].
    cbn [copy_loop]. by destruct (_ <? _).
  - destruct fuel2 as [|fuel2].
    + destruct stream; [|simpl in H2; lia]. cbn [copy_loop]. by destruct (_ <? _).
    + cbn [copy_loop]. destruct (_ <? _); [|done].
      destruct (fgets BUFFER_SIZE stream) as [[buffer rest]|] eqn:E; [|done].
      apply fgets_shorter in E; [|unfold BUFFER_SIZE; lia].
      apply IH; lia.
Qed.

Lemma read_nil count (stream : bytes) :
  (1 <= count)%nat -> take count stream = [] -> stream = [].
Proof. destruct count; [lia|]. by destruct stream. Qed.

Lemma letter_map_loop_fold fuel letter_frequencies stream :
  (length stream <= fuel)%nat ->
  letter_map_loop fuel letter_frequencies stream
  = fold_left count_letter stream letter_frequencies.
Proof.
  revert letter_frequencies stream.
  induction fuel as [|fuel IH]; intros freq stream Hlen.
  - destruct stream; [done|simpl in Hlen; lia].
  - cbn [letter_map_loop read].
    destruct (take 1024 stream) as [|c read_buffer] eqn:Htake.
    + apply read_nil in Htake as ->; [done|lia].
    + rewrite <- Htake, IH.
      * rewrite <- fold_left_app, take_drop. done.
      * rewrite length_drop. destruct stream; [done|]. simpl in *. lia.
Qed.

Lemma letter_reduce_loop_fuel fuel1 : forall fuel2 aggregated_counts stream,
  (length stream <= fuel1)%nat -> (length stream <= fuel2)%nat ->
  letter_reduce_loop fuel1 aggregated_counts stream
  = letter_reduce_loop fuel2 aggregated_counts stream.
Proof.
  induction fuel1 as [|fuel1 IH]; intros fuel2 counts stream H1 H2.
  - destruct stream; [|simpl in H1; lia]. by destruct fuel2.
  - destruct fuel2 as [|fuel2].
    + destruct stream; [done|simpl in H2; lia].
    + cbn [letter_reduce_loop read].
      destruct (take 255 stream) as [|c read_buffer] eqn:Htake; [done|].
      apply IH; rewrite length_drop; destruct stream; try done; simpl in *; lia.
Qed.

Lemma finder_reduce_loop_copy fuel output stream :
  (length stream <= fuel)%nat ->
  finder_reduce_loop fuel output stream = output ++ stream.
Proof.
  revert output stream. induction fuel as [|fuel IH]; intros output stream Hlen.
  - destruct stream; [by rewrite app_nil_r|simpl in Hlen; lia].
  - cbn [finder_reduce_loop read].
    destruct (take 1024 stream) as [|c read_buffer] eqn:Htake.
    + apply read_nil in Htake as ->; [by rewrite app_nil_r|lia].
    + rewrite <- Htake, IH.
      * rewrite <- app_assoc, take_drop. done.
      * rewrite length_drop. destruct stream; [done|]. simpl in *. lia.
Qed.

(** [word_finder_reduce] concatenates the intermediate files. *)
Lemma word_finder_reduce_concat (input_fds : list bytes) :
  input_fds <> [] ->
  word_finder_reduce input_fds (Z.of_nat (length input_fds))
  = (concat input_fds, Some 0).
Proof.
  intros Hne. unfold word_finder_reduce.
  replace (Z.of_nat (length input_fds) <=? 0) with false
    by (symmetry; apply Z.leb_gt; destruct input_fds; [done|cbn [length]; lia]).
  rewrite Nat2Z.id, firstn_all. f_equal.
  assert (H : forall output, fold_left (fun output file =>
                finder_reduce_loop (length file) output file) input_fds output
              = output ++ concat input_fds).
  { clear Hne. induction input_fds as [|file files IH]; intros output; simpl.
    - by rewrite app_nil_r.
    - rewrite IH, finder_reduce_loop_copy by done. by rewrite app_assoc. }
  apply H.
Qed.

Lemma fold_finder_hung word s st :
  finder_hung st = true -> fold_left (finder_byte word) s st = st.
Proof.
  intros Hhung. induction s as [|c s IH]; [done|].
  cbn [fold_left]. unfold finder_byte at 2. by rewrite Hhung.
Qed.

(** The read loop hands every byte of the split to [finder_byte], in
    order: the fuel it starts with is enough. *)
Lemma finder_loop_fold fuel word st stream :
  (length stream <= fuel)%nat ->
  finder_loop fuel word st stream = fold_left (finder_byte word) stream st.
Proof.
  revert st stream. induction fuel as [|fuel IH]; intros st stream Hlen.
  - destruct stream; [done|simpl in Hlen; lia].
  - cbn [finder_loop read].
    assert (Hsize : (1 <= READ_SIZE)%nat) by (unfold READ_SIZE; lia).
    destruct (take READ_SIZE stream) as [|c read_buffer] eqn:Htake.
    + apply read_nil in Htake as ->; done.
    + rewrite <- Htake, IH by (rewrite length_drop; lia).
      rewrite <- fold_left_app, take_drop. done.
Qed.

Lemma finder_flush_line word st :
  finder_hung (finder_flush word st) = false ->
  current_line (finder_flush word st) = [].
Proof. unfold finder_flush. by destruct (search_line _ _ _ _). Qed.

(** After a newline the line buffer is empty, unless the search is caught
    in its loop. *)
Lemma finder_after_newline word s st :
  let st' := fold_left (finder_byte word) (s ++ [nl]) st in
  finder_hung st' = false -> current_line st' = [].
Proof.
  rewrite fold_left_app. cbn [fold_left].
  set (st1 := fold_left (finder_byte word) s st). unfold finder_byte.
  destruct (finder_hung st1) eqn:Hhung; [by rewrite Hhung|].
  cbn [orb Ascii.eqb]. rewrite Ascii.eqb_refl. apply finder_flush_line.
Qed.

(** Bytes without a newline that fit the line buffer are only stored. *)
Lemma finder_tail word tail : forall st,
  nl ∉ tail -> finder_hung st = false ->
  (length (current_line st) + length tail <= LINE_SIZE - 1)%nat ->
  fold_left (finder_byte word) tail st
  = {| current_line := current_line st ++ tail;
       original_line_copy := original_line_copy st;
       finder_out := finder_out st;
       finder_hung := false |}.
Proof.
  induction tail as [|c tail IH]; intros st Hnl Hhung Hlen.
  - rewrite app_nil_r. destruct st; simpl in *. by subst.
  - apply not_elem_of_cons in Hnl as [Hc Hnl]. cbn [fold_left].
    unfold finder_byte at 2. rewrite Hhung.
    replace (c =? nl)%char with false by (symmetry; by apply Ascii.eqb_neq).
    replace (length (current_line st) =? LINE_SIZE - 1)%nat with false
      by (symmetry; apply Nat.eqb_neq; cbn [length] in Hlen; unfold LINE_SIZE in *; lia).
    cbn [orb]. rewrite IH; cbn [current_line original_line_copy finder_out finder_hung].
    + by rewrite <- app_assoc.
    + done.
    + done.
    + rewrite length_app. cbn [length] in *. lia.
Qed.

Lemma is_prefix_length needle haystack :
  is_prefix needle haystack = true -> (length needle <= length haystack)%nat.
Proof.
  revert haystack. induction needle as [|c needle IH]; intros [|d haystack]; simpl;
    try done; [lia|].
  intros [_ H]%andb_prop. apply IH in H. lia.
Qed.

Lemma strstr_bound haystack needle offset :
  strstr haystack needle = Some offset ->
  (offset + length needle <= length haystack)%nat.
Proof.
  revert offset. induction haystack as [|c haystack IH]; intros offset; simpl.
  - destruct needle; [|done]. intros [= <-]. simpl. lia.
  - destruct (is_prefix needle (c :: haystack)) eqn:Hpre.
    + intros [= <-]. apply is_prefix_length in Hpre. simpl in *. lia.
    + destruct (strstr haystack needle) as [off|]; [|done]. simpl.
      intros [= <-]. specialize (IH off eq_refl). lia.
Qed.

(** With a word that is not empty each round of the search moves on, and
    the fuel [finder_flush] gives is enough. *)
Lemma search_line_returns line target_word :
  target_word <> [] ->
  forall fuel search_ptr,
    (length line - search_ptr < fuel)%nat ->
    is_Some (search_line fuel line target_word search_ptr).
Proof.
  intros Hword. induction fuel as [|fuel IH]; intros search_ptr Hfuel; [lia|].
  cbn [search_line].
  destruct (strstr (drop search_ptr line) target_word) as [offset|] eqn:Hstr;
    [|by eexists].
  destruct (word_boundaries _ _ _); [by eexists|].
  apply IH. apply strstr_bound in Hstr. rewrite length_drop in Hstr.
  destruct target_word; [done|]. simpl in *. lia.
Qed.

Lemma finder_byte_returns target_word st c :
  target_word <> [] -> finder_hung st = false ->
  finder_hung (finder_byte target_word st c) = false.
Proof.
  intros Hword Hhung. unfold finder_byte. rewrite Hhung.
  destruct (_ || _); [|done]. unfold finder_flush.
  destruct (search_line_returns (cstr (current_line st)) target_word Hword
              (S (length (cstr (current_line st)))) O ltac:(lia)) as [matched ->].
  done.
Qed.

(** [word_finder_map] returns whenever the word is not empty. *)
Lemma word_finder_map_returns stack word split :
  cstr word <> [] -> (word_finder_map stack (Some word) split).2 = Some 0.
Proof.
  intros Hword. unfold word_finder_map. rewrite finder_loop_fold by done.
  cbn [snd].
  assert (H : forall st, finder_hung st = false ->
            finder_hung (fold_left (finder_byte (cstr word)) split st) = false).
  { induction split as [|c split IH]; intros st Hst; [done|].
    cbn [fold_left]. apply IH. by apply finder_byte_returns. }
  by rewrite H.
Qed.

(** With the empty word and a line that does not start with a separator
    the search repeats the same step for ever. *)
Example finder_empty_word stack :
  word_finder_map stack (Some []) (B "x" ++ [nl]) = ([], None).
Proof. vm_compute. reflexivity. Qed.

(** ** The split files on the file system *)

Lemma split_filename_inj i j : split_filename i = split_filename j -> i = j.
Proof.
  unfold split_filename. intros H.
  apply (inj (String.append "split-")) in H. by apply (inj pretty) in H.
Qed.

Lemma split_loop_below todo : forall first split_size stream fs i,
  (i < first)%nat ->
  split_loop todo first split_size stream fs !! split_filename i
  = fs !! split_filename i.
Proof.
  induction todo as [|todo IH]; intros first split_size stream fs i Hi; simpl; [done|].
  destruct (copy_records split_size stream) as [split_file rest].
  rewrite IH by lia. apply lookup_insert_ne.
  intros H. apply split_filename_inj in H. lia.
Qed.

(** Lines 47-71 leave in split-[first + i] the [i]-th element of
    [split_files]. *)
Lemma split_loop_files todo : forall first split_size stream fs i s,
  split_files todo split_size stream !! i = Some s ->
  split_loop todo first split_size stream fs !! split_filename (first + i) = Some s.
Proof.
  induction todo as [|todo IH]; intros first split_size stream fs i s; simpl; [done|].
  destruct (copy_records split_size stream) as [split_file rest].
  destruct i as [|i]; simpl.
  - intros [= <-]. rewrite Nat.add_0_r, split_loop_below by lia.
    apply lookup_insert_eq.
  - intros Hi. rewrite <- Nat.add_succ_comm. by apply IH.
Qed.

(** ** The coordinator *)

Section Coordinator.
Variable env : environment.
Variable spec : MAPREDUCE_SPEC.

Local Arguments fork_failed_msg : simpl never.
Local Arguments map_failed_msg : simpl never.
Local Arguments map_worker : simpl never.
Local Arguments reduce_worker : simpl never.

Lemma run_child_status p child fs fs' status errs :
  run_child env p child fs = (fs', status, errs) ->
  is_Some (cr_exit (child fs)) -> is_Some status.
Proof.
  unfold run_child. destruct (env_kill env p).
  - intros [= <- <- <-] _. by eexists.
  - intros [= <- <- <-] [code ->]. by eexists.
Qed.

Lemma map_worker_exits i fs :
  (forall split, is_Some (map_func spec (usr_data spec) split).2) ->
  is_Some (cr_exit (map_worker spec i fs)).
Proof.
  intros Hterm. unfold map_worker.
  destruct (fs !! split_filename i) as [split|]; [|by eexists].
  specialize (Hterm split).
  destruct (map_func spec (usr_data spec) split) as [written [st|]];
    [|by destruct Hterm].
  destruct (st =? SUCCESS); by eexists.
Qed.

Lemma reduce_worker_exits n fs :
  (forall files, is_Some (reduce_func spec files n).2) ->
  is_Some (cr_exit (reduce_worker spec n fs)).
Proof.
  intros Hterm. unfold reduce_worker.
  destruct (open_intermediate _ _ _) as [name|files]; [by eexists|].
  specialize (Hterm files).
  destruct (reduce_func spec files n) as [written [st|]]; [|by destruct Hterm].
  destruct (st =? SUCCESS); by eexists.
Qed.

(** The spawn loop either forks [todo] workers, storing each identifier
    at once, or stops at the first [fork] that fails. *)
Lemma spawn_loop_spec todo : forall i map_worker_pids result w,
  match spawn_loop env spec todo i map_worker_pids result w with
  | Returned (map_worker_pids', result') w' =>
      exists ps : list positive,
        length ps = todo
        /\ map_worker_pids' = list_inserts i (Z.pos <$> ps) map_worker_pids
        /\ map_worker_pid result' = list_inserts i (Z.pos <$> ps) (map_worker_pid result)
        /\ reduce_worker_pid result' = reduce_worker_pid result
        /\ w_trace w' = w_trace w ++ spawn_events i (Z.pos <$> ps)
        /\ (forall p, is_Some (w_children w' !! p)
                       <-> p ∈ ps \/ is_Some (w_children w !! p))
        /\ (os_sound env -> NoDup ps /\ forall p, p ∈ ps -> w_children w !! p = None)
        /\ ((forall split, is_Some (map_func spec (usr_data spec) split).2) ->
            no_hang w -> no_hang w')
  | Exited status w' =>
      status = ERROR
      /\ exists ps : list positive,
           (length ps < todo)%nat
           /\ w_trace w' = w_trace w ++ spawn_events i (Z.pos <$> ps)
                ++ [EvFork (MapWorker (i + length ps)) (-1);
                    EvStderr (fork_failed_msg (MapWorker (i + length ps)))]
  | _ => False
  end.
Proof.
  induction todo as [|todo IH]; intros i pids result w.
  - simpl. exists []. simpl. rewrite app_nil_r. split_and!; auto.
    + intros p. rewrite elem_of_nil. tauto.
    + intros _. split; [constructor|]. intros p Hp. by apply elem_of_nil in Hp.
  - cbn [spawn_loop]. unfold bind at 1. unfold fork.
    destruct (env_fork env (w_forks w) (dom (w_children w))) as [p|] eqn:Hfork.
    + destruct (run_child env p (map_worker spec i) (w_fs w)) as [[fs st] errs] eqn:Hrun.
      change (Z.pos p <? 0) with false. cbv iota. unfold bind at 1, emit. cbn [w_fs w_children w_child_stderr w_forks w_trace].
      match goal with |- context [spawn_loop env spec todo (S i) ?l ?r ?w1] =>
        specialize (IH (S i) l r w1);
        destruct (spawn_loop env spec todo (S i) l r w1) as [[pids' result'] w'|status w'| |]
      end; [| |done|done].
      * destruct IH as (ps & Hlen & Hpids & Hres & Hred & Htrace & Hdom & Hsound & Hhang).
        cbn [w_trace w_children map_worker_pid reduce_worker_pid] in *.
        exists (p :: ps). split_and!.
        -- simpl. by rewrite Hlen.
        -- rewrite Hpids. simpl. by rewrite list_insert_inserts_lt by lia.
        -- rewrite Hres. simpl. by rewrite list_insert_inserts_lt by lia.
        -- done.
        -- rewrite Htrace, <- !app_assoc. done.
        -- intros q. rewrite Hdom, elem_of_cons, lookup_insert_is_Some.
           destruct (decide (p = q)) as [->|]; intuition congruence.
        -- intros Hos. destruct (Hsound Hos) as [Hnd Hfresh]. split.
           ++ constructor; [|done]. intros Hp.
              specialize (Hfresh p Hp). by rewrite lookup_insert_eq in Hfresh.
           ++ intros q [->|Hq]%elem_of_cons.
              ** specialize (Hos _ _ _ Hfork). by apply not_elem_of_dom in Hos.
              ** specialize (Hfresh q Hq).
                 apply lookup_insert_None in Hfresh as [? _]. done.
        -- intros Hterm Hw. apply Hhang; [done|].
           unfold no_hang. cbn [w_children]. apply map_Forall_insert_2; [|done].
           eapply run_child_status; [done|]. by apply map_worker_exits.
      * destruct IH as (-> & ps & Hlen & Htrace). split; [done|].
        exists (p :: ps). cbn [w_trace] in *. split; [simpl; lia|].
        rewrite Htrace. simpl. rewrite <- !app_assoc. simpl.
        by rewrite Nat.add_succ_r.
    + change (-1 <? 0) with true. cbv iota. unfold EXIT_ERROR. cbn [w_trace].
      split; [done|]. exists []. split; [simpl; lia|]. simpl.
      rewrite Nat.add_0_r, <- app_assoc. done.
Qed.

Lemma report_run (b : bool) (e : event) (w : world) :
  (if b then emit e else ret tt) w = Returned tt (log w (if b then [e] else [])).
Proof.
  destruct b; unfold emit, ret, log; [done|].
  destruct w; simpl. by rewrite app_nil_r.
Qed.

(** The barrier waits for the workers in the order of the list, and
    prints one diagnostic after the wait for a worker that failed; it
    blocks at the first worker that never terminates. *)
Lemma wait_loop_spec todo : forall i pre (ps : list positive) post status w,
  length pre = i -> length ps = todo ->
  match wait_loop todo i (pre ++ (Z.pos <$> ps) ++ post) status w with
  | Returned status' w' =>
      exists rs : list (option Z),
        length rs = todo
        /\ w_trace w' = w_trace w ++ barrier_events i (zip (Z.pos <$> ps) rs) status
        /\ status' = barrier_status (zip (Z.pos <$> ps) rs) status
        /\ (NoDup ps -> (forall p, p ∈ ps -> is_Some (w_children w !! p)) ->
            Forall is_Some rs)
        /\ (no_hang w -> no_hang w')
        /\ w_fs w' = w_fs w
  | Blocked w' =>
      ~ no_hang w
      /\ exists rs : list (option Z),
           (length rs < todo)%nat
           /\ w_trace w' = w_trace w ++ barrier_events i (zip (Z.pos <$> ps) rs) status
  | _ => False
  end.
Proof.
  induction todo as [|todo IH]; intros i pre ps post status w Hpre Hps.
  - destruct ps; [|done]. simpl. exists []. simpl. rewrite app_nil_r.
    split_and!; auto.
  - destruct ps as [|p ps]; [done|]. injection Hps as Hps.
    cbn [wait_loop]. unfold bind at 1.
    assert (Hi : (pre ++ (Z.pos <$> p :: ps) ++ post) !!! i = Z.pos p).
    { subst i. rewrite fmap_cons, <- app_comm_cons. apply list_lookup_total_middle. done. }
    rewrite Hi. unfold waitpid.
    specialize (IH (S i) (pre ++ [Z.pos p]) ps post).
    assert (Hshift : pre ++ (Z.pos <$> p :: ps) ++ post
                     = (pre ++ [Z.pos p]) ++ (Z.pos <$> ps) ++ post).
    { rewrite fmap_cons, <- app_comm_cons, <- app_assoc. done. }
    rewrite Hshift.
    assert (Hpre' : length (pre ++ [Z.pos p]) = S i) by (rewrite length_app; simpl; lia).
    destruct (w_children w !! p) as [[reported|]|] eqn:Hchild.
    + (* the child is reaped *)
      unfold bind at 1. rewrite report_run. cbv beta iota.
      match goal with |- context [wait_loop todo (S i) ?l reported ?w2] =>
        specialize (IH reported w2 Hpre' Hps);
        destruct (wait_loop todo (S i) l reported w2) as [status' w'|? ?|?|w']
      end; [|done|done|].
      * destruct IH as (rs & Hlen & Htrace & Hstatus & Hsome & Hhang & Hfs).
        exists (Some reported :: rs). cbn [log w_trace w_children w_fs] in *.
        split_and!.
        -- simpl. lia.
        -- rewrite Htrace. simpl. rewrite <- !app_assoc. done.
        -- done.
        -- intros [Hp Hnd]%NoDup_cons Hin. constructor; [by eexists|].
           apply Hsome; [done|]. intros q Hq.
           rewrite lookup_delete_ne by (intros ->; done).
           apply Hin. by right.
        -- intros Hw. apply Hhang. by apply map_Forall_delete.
        -- done.
      * destruct IH as (Hhang & rs & Hlen & Htrace).
        cbn [log w_trace w_children] in *. split.
        -- intros Hw. apply Hhang. by apply map_Forall_delete.
        -- exists (Some reported :: rs). split; [simpl; lia|].
           rewrite Htrace. simpl. rewrite <- !app_assoc. done.
    + (* the child never terminates *)
      split.
      * intros Hhang. specialize (Hhang p None Hchild). by destruct Hhang.
      * exists []. split; [simpl; lia|]. simpl. by rewrite app_nil_r.
    + (* no such child: the variable keeps its value *)
      unfold bind at 1. rewrite report_run. cbv beta iota.
      match goal with |- context [wait_loop todo (S i) ?l status ?w2] =>
        specialize (IH status w2 Hpre' Hps);
        destruct (wait_loop todo (S i) l status w2) as [status' w'|? ?|?|w']
      end; [|done|done|].
      * destruct IH as (rs & Hlen & Htrace & Hstatus & Hsome & Hhang & Hfs).
        exists (None :: rs). cbn [log w_trace w_children w_fs] in *.
        split_and!.
        -- simpl. lia.
        -- rewrite Htrace. simpl. rewrite <- !app_assoc. done.
        -- done.
        -- intros _ Hin. destruct (Hin p) as [? Hp]; [by left|]. congruence.
        -- done.
        -- done.
      * destruct IH as (Hhang & rs & Hlen & Htrace).
        cbn [log w_trace w_children] in *. split; [done|].
        exists (None :: rs). split; [simpl; lia|].
        rewrite Htrace. simpl. rewrite <- !app_assoc. done.
Qed.

(** The reduce phase: one worker, waited for at once. *)
Lemma reduce_phase_spec status result w :
  match reduce_phase env spec status result w with
  | Returned result' w' =>
      exists (pr : positive) (sr : Z),
        result' = {| map_worker_pid := map_worker_pid result;
                     reduce_worker_pid := Z.pos pr |}
        /\ w_trace w' = w_trace w ++ reduce_events (Z.pos pr) sr
  | Exited status' w' =>
      status' = ERROR
      /\ w_trace w' = w_trace w ++ [EvFork ReduceWorker (-1);
                                    EvStderr (fork_failed_msg ReduceWorker)]
  | Blocked w' =>
      ~ (forall files, is_Some (reduce_func spec files (split_num spec)).2)
      /\ exists pr : positive,
           w_trace w' = w_trace w ++ [EvFork ReduceWorker (Z.pos pr);
                                      EvStore ReduceWorker (Z.pos pr)]
  | Crashed _ => False
  end.
Proof.
  unfold reduce_phase, bind at 1, fork.
  destruct (env_fork env (w_forks w) (dom (w_children w))) as [p|].
  - destruct (run_child env p (reduce_worker spec (split_num spec)) (w_fs w))
      as [[fs st] errs] eqn:Hrun.
    change (Z.pos p <? 0) with false. cbv iota.
    unfold bind at 1, emit. unfold bind at 1, waitpid. cbn [w_children w_trace].
    rewrite lookup_insert_eq. destruct st as [sr|].
    + unfold reduce_events.
      destruct (failed sr) eqn:Hfailed; unfold bind, emit, ret; exists p, sr;
        cbn [w_trace]; rewrite Hfailed, <- ?app_assoc; done.
    + split.
      * intros Hterm.
        destruct (run_child_status _ _ _ _ _ _ Hrun (reduce_worker_exits _ _ Hterm)).
        done.
      * exists p. cbn [w_trace]. by rewrite <- app_assoc.
  - change (-1 <? 0) with true. cbv iota. unfold EXIT_ERROR. cbn [w_trace].
    by rewrite <- app_assoc.
Qed.

(** [mapreduce()] on an input file that exists, with a positive split
    count: the job returns after the spawn loop, the barrier and the
    reduce phase, or it exits at the first [fork] that fails; it blocks
    only on a worker that never terminates. *)
Lemma mapreduce_spec (result : MAPREDUCE_RESULT) (w : world) (input : bytes) (N : nat) :
  w_fs w !! input_data_filepath spec = Some input ->
  split_num spec = Z.of_nat N -> (0 < N)%nat ->
  match mapreduce env (Some spec) (Some result) w with
  | Returned result' w' =>
      exists (ps : list positive) (rs : list (option Z)) (pr : positive) (sr : Z),
        length ps = N /\ length rs = N
        /\ map_worker_pid result' = list_inserts 0 (Z.pos <$> ps) (map_worker_pid result)
        /\ reduce_worker_pid result' = Z.pos pr
        /\ w_trace w' = w_trace w ++ spawn_events 0 (Z.pos <$> ps)
             ++ barrier_events 0 (zip (Z.pos <$> ps) rs) (env_uninit env)
             ++ reduce_events (Z.pos pr) sr
        /\ (os_sound env -> NoDup ps /\ Forall is_Some rs)
  | Exited status w' =>
      status = ERROR
      /\ exists (ps : list positive) (t : list event) (who : worker),
           w_trace w' = w_trace w ++ spawn_events 0 (Z.pos <$> ps) ++ t
                          ++ [EvFork who (-1); EvStderr (fork_failed_msg who)]
           /\ ((who = MapWorker (length ps) /\ (length ps < N)%nat /\ t = [])
               \/ (who = ReduceWorker /\ length ps = N
                   /\ exists rs, length rs = N
                        /\ t = barrier_events 0 (zip (Z.pos <$> ps) rs) (env_uninit env)))
  | Blocked w' =>
      ~ (terminating spec /\ no_hang w)
      /\ exists (ps : list positive) (rs : list (option Z)) (t : list event),
           length ps = N
           /\ w_trace w' = w_trace w ++ spawn_events 0 (Z.pos <$> ps)
                ++ barrier_events 0 (zip (Z.pos <$> ps) rs) (env_uninit env) ++ t
           /\ (((length rs < N)%nat /\ t = [])
               \/ (length rs = N
                   /\ exists pr : positive,
                        t = [EvFork ReduceWorker (Z.pos pr);
                             EvStore ReduceWorker (Z.pos pr)]))
  | Crashed _ => False
  end.
Proof.
  intros Hinput Hnum HN. unfold mapreduce, bind at 1, get_fs. rewrite Hinput, Hnum.
  replace (Z.of_nat N =? 0) with false by lia.
  replace (Z.of_nat N <? 0) with false by lia.
  rewrite Nat2Z.id. unfold bind at 1, set_fs. unfold bind at 1.
  match goal with |- context [spawn_loop env spec N O ?l ?r ?w1] =>
    pose proof (spawn_loop_spec N O l r w1) as Hspawn;
    destruct (spawn_loop env spec N O l r w1) as [[pids result1] w1'|status w1'| |]
  end; [| |done|done].
  2:{ destruct Hspawn as (-> & ps & Hlen & Htrace). split; [done|].
      exists ps, [], (MapWorker (length ps)). cbn [w_trace] in Htrace.
      split; [done|]. left. done. }
  destruct Hspawn as (ps & Hlen & Hpids & Hres & Hred & Htrace & Hdom & Hsound & Hhang).
  cbn [w_trace w_children] in *.
  assert (Hpids' : pids = [] ++ (Z.pos <$> ps) ++ []).
  { rewrite Hpids, app_nil_r. simpl.
    rewrite <- (app_nil_r (replicate N (env_uninit env))).
    rewrite list_inserts_0_r by (by rewrite length_fmap, length_replicate).
    by rewrite app_nil_r. }
  unfold bind at 1.
  pose proof (wait_loop_spec N O [] ps [] (env_uninit env) w1' eq_refl Hlen) as Hwait.
  rewrite <- Hpids' in Hwait.
  destruct (wait_loop N 0 pids (env_uninit env) w1') as [status2 w2|? ?| |w2]; [|done|done|].
  2:{ destruct Hwait as (Hw1 & rs & Hrlen & Htrace2). split.
      - intros [[Hmap _] Hw]. apply Hw1, Hhang; done.
      - exists ps, rs, []. split; [done|]. split; [|by left].
        rewrite Htrace2, Htrace, app_nil_r, <- !app_assoc. done. }
  destruct Hwait as (rs & Hrlen & Htrace2 & Hstatus & Hsome & Hhang2 & _).
  pose proof (reduce_phase_spec status2 result1 w2) as Hreduce.
  destruct (reduce_phase env spec status2 result1 w2) as [result' w'|status w'| |w'].
  - destruct Hreduce as (pr & sr & -> & Htrace3).
    exists ps, rs, pr, sr. cbn [map_worker_pid reduce_worker_pid].
    split_and!; auto.
    + rewrite Htrace3, Htrace2, Htrace, <- !app_assoc. done.
    + intros Hos. destruct (Hsound Hos) as [Hnd _]. split; [done|].
      apply Hsome; [done|]. intros p Hp. apply Hdom. by left.
  - destruct Hreduce as (-> & Htrace3). split; [done|].
    exists ps, (barrier_events 0 (zip (Z.pos <$> ps) rs) (env_uninit env)), ReduceWorker.
    split; [rewrite Htrace3, Htrace2, Htrace, <- !app_assoc; done|].
    right. split_and!; auto. by exists rs.
  - done.
  - destruct Hreduce as (Hnever & pr & Htrace3). split.
    + intros [[_ Hred'] _]. by apply Hnever.
    + exists ps, rs, [EvFork ReduceWorker (Z.pos pr); EvStore ReduceWorker (Z.pos pr)].
      split; [done|]. split; [|right; split; [done|by exists pr]].
      rewrite Htrace3, Htrace2, Htrace, <- !app_assoc. done.
Qed.

(** Without an input file or with a split count that is not positive the
    job ends before the first [fork]. *)
Lemma mapreduce_early (result : MAPREDUCE_RESULT) (w : world) :
  w_fs w !! input_data_filepath spec = None \/ split_num spec <= 0 ->
  let o := mapreduce env (Some spec) (Some result) w in
  returned o = false
  /\ exists t, w_trace (outcome_world o) = w_trace w ++ t /\ List.filter is_sync t = [].
Proof.
  intros Hearly o. subst o. unfold mapreduce, bind, get_fs.
  destruct (w_fs w !! input_data_filepath spec) as [input|].
  - destruct Hearly as [?|Hnum]; [done|].
    destruct (split_num spec =? 0) eqn:H0.
    + split; [done|]. exists []. by rewrite app_nil_r.
    + replace (split_num spec <? 0) with true by lia.
      split; [done|]. by eexists [_].
  - split; [done|]. by eexists [_].
Qed.

End Coordinator.

(** *** What the trace shapes contain *)

Lemma diagnostics_app t1 t2 : diagnostics (t1 ++ t2) = diagnostics t1 ++ diagnostics t2.
Proof. apply omap_app. Qed.

Lemma diagnostics_spawn i pids : diagnostics (spawn_events i pids) = [].
Proof. revert i. induction pids as [|pid pids IH]; intros i; simpl; auto. Qed.

Lemma diagnostics_barrier i pids statuses status :
  length pids = length statuses ->
  diagnostics (barrier_events i (zip pids (Some <$> statuses)) status)
  = failed_msgs i statuses.
Proof.
  revert i pids status.
  induction statuses as [|s statuses IH]; intros i [|pid pids] status Hlen;
    simplify_eq/=; [done|].
  unfold diagnostics in *. cbn [omap list_omap]. rewrite omap_app, IH by done.
  by destruct (failed s).
Qed.

Lemma diagnostics_reduce pid status :
  diagnostics (reduce_events pid status)
  = if failed status then [reduce_failed_msg] else [].
Proof. unfold reduce_events. by destruct (failed status). Qed.

Lemma sync_spawn i pids :
  List.filter is_sync (spawn_events i pids)
  = imap (fun j pid => EvFork (MapWorker (i + j)) pid) pids.
Proof.
  revert i. induction pids as [|pid pids IH]; intros i; simpl; [done|].
  rewrite Nat.add_0_r, IH. f_equal. apply imap_ext. intros j x _. simpl.
  f_equal. f_equal. lia.
Qed.

Lemma sync_barrier i pids reported status :
  List.filter is_sync (barrier_events i (zip pids reported) status)
  = zip_with EvWait pids reported.
Proof.
  revert i reported status.
  induction pids as [|pid pids IH]; intros i [|r reported] status; simpl; try done.
  rewrite List.filter_app, IH.
  by destruct (failed (default status r)).
Qed.

Lemma sync_reduce pid status :
  List.filter is_sync (reduce_events pid status)
  = [EvFork ReduceWorker pid; EvWait pid (Some status)].
Proof. unfold reduce_events. by destruct (failed status). Qed.



Lemma all_reported (rs : list (option Z)) :
  Forall is_Some rs -> exists statuses, rs = Some <$> statuses.
Proof.
  induction 1 as [|r rs [s ->] _ [statuses ->]]; [by exists []|].
  by exists (s :: statuses).
Qed.

Lemma string_length_app (s t : string) :
  String.length (s +:+ t) = (String.length s + String.length t)%nat.
Proof. induction s as [|c s IH]; simpl; [done|]. by rewrite IH. Qed.

Lemma string_app_cancel_r (s1 s2 t : string) : s1 +:+ t = s2 +:+ t -> s1 = s2.
Proof.
  intros H.
  assert (Hlen : String.length s1 = String.length s2).
  { apply (f_equal String.length) in H. rewrite !string_length_app in H. lia. }
  revert s2 H Hlen.
  induction s1 as [|c s1 IH]; intros [|d s2] H Hlen; simplify_eq/=; [done|].
  f_equal. by apply IH.
Qed.

Lemma map_failed_msg_inj i j : map_failed_msg i = map_failed_msg j -> i = j.
Proof.
  unfold map_failed_msg. intros H.
  apply (inj (String.append "Error: Map worker ")) in H.
  apply string_app_cancel_r in H. by apply (inj pretty) in H.
Qed.

Lemma map_failed_msg_not_reduce i : map_failed_msg i <> reduce_failed_msg.
Proof. unfold map_failed_msg, reduce_failed_msg. simpl. discriminate. Qed.

Lemma failed_msgs_elem k i statuses :
  map_failed_msg k ∈ failed_msgs i statuses
  <-> exists j s, k = (i + j)%nat /\ statuses !! j = Some s /\ failed s = true.
Proof.
  revert i. induction statuses as [|s statuses IH]; intros i; simpl.
  - rewrite elem_of_nil. split; [done|]. by intros (j & s & _ & ? & _).
  - rewrite elem_of_app, IH. split.
    + intros [Hin | (j & s' & -> & Hj & Hs')].
      * destruct (failed s) eqn:Hs; [|by apply elem_of_nil in Hin].
        apply list_elem_of_singleton, map_failed_msg_inj in Hin as ->.
        exists O, s. by rewrite Nat.add_0_r.
      * exists (S j), s'. split_and!; [lia|done|done].
    + intros ([|j] & s' & -> & Hj & Hs'); simplify_eq/=.
      * left. rewrite Hs', Nat.add_0_r. by apply list_elem_of_singleton.
      * right. exists j, s'. split_and!; [lia|done|done].
Qed.

Lemma failed_msgs_map x i statuses :
  x ∈ failed_msgs i statuses -> exists k, x = map_failed_msg k.
Proof.
  revert i. induction statuses as [|s statuses IH]; intros i; simpl.
  - by intros ?%elem_of_nil.
  - rewrite elem_of_app. intros [Hin | Hin]; [|by eapply IH].
    destruct (failed s); [|by apply elem_of_nil in Hin].
    apply list_elem_of_singleton in Hin. by exists i.
Qed.

Lemma failed_spec status :
  failed status = true <-> WIFEXITED status = true /\ WEXITSTATUS status <> SUCCESS.
Proof.
  unfold failed. rewrite andb_true_iff, negb_true_iff, Z.eqb_neq. done.
Qed.

Lemma os_sound_fresh kill uninit :
  os_sound {| env_fork := fun _ live => Some (fresh live);
              env_kill := kill; env_uninit := uninit |}.
Proof. intros k live p [= <-]. apply is_fresh. Qed.





Lemma no_hang_boot fs : no_hang (boot fs).
Proof. apply map_Forall_empty. Qed.

(** C3.  Whatever the environment does (identifiers, statuses, failing
    forks, workers that are killed or never end) and however the job ends,
    the synchronising calls of the coordinator have the shape of the
    barrier: map workers are forked in index order; a wait happens only
    after all [N] forks, and the waits are on the workers in spawn order;
    the reduce worker is forked only after all [N] waits have returned.  A
    job that returns has done all [N] forks and all [N] waits. *)
Theorem barrier_in_spawn_order env spec result w :
  let o := mapreduce env (Some spec) (Some result) w in
  exists t : list event,
    w_trace (outcome_world o) = w_trace w ++ t
    /\ barrier_shape (Z.to_nat (split_num spec)) (returned o) (List.filter is_sync t).
Proof.
  intros o.
  destruct (w_fs w !! input_data_filepath spec) as [input|] eqn:Hinput.
  2:{ destruct (mapreduce_early env spec result w (or_introl Hinput))
        as (Hret & t & Ht & Hsync).
      exists t. split; [done|]. fold o in Hret. rewrite Hret, Hsync.
      exists [], [], 0, 0, []. split_and!; rewrite ?app_nil_r; first [done | simpl; lia | apply prefix_nil | by eexists [_]]. }
  destruct (decide (split_num spec <= 0)) as [Hnum|Hnum].
  { destruct (mapreduce_early env spec result w (or_intror Hnum))
      as (Hret & t & Ht & Hsync).
    exists t. split; [done|]. fold o in Hret. rewrite Hret, Hsync.
    exists [], [], 0, 0, []. split_and!; rewrite ?app_nil_r; first [done | simpl; lia | apply prefix_nil | by eexists [_]]. }
  set (N := Z.to_nat (split_num spec)).
  pose proof (mapreduce_spec env spec result w input N Hinput ltac:(lia) ltac:(lia))
    as Hspec.
  fold o in Hspec. destruct o as [result' w'|status w'|w'|w']; cbn [outcome_world returned].
  - destruct Hspec as (ps & rs & pr & sr & Hps & Hrs & _ & _ & Htrace & _).
    eexists. split; [exact Htrace|].
    rewrite !List.filter_app, sync_spawn, sync_barrier, sync_reduce.
    exists (Z.pos <$> ps), rs, (Z.pos pr), sr,
      [EvFork ReduceWorker (Z.pos pr); EvWait (Z.pos pr) (Some sr)].
    rewrite length_fmap. split_and!; rewrite ?app_nil_r; first [done | simpl; lia | apply prefix_nil | by eexists [_]].
  - destruct Hspec as (_ & ps & t & who & Htrace & Hcase).
    eexists. split; [exact Htrace|].
    rewrite !List.filter_app, sync_spawn. simpl.
    destruct Hcase as [(-> & Hlen & ->) | (-> & Hlen & rs & Hrs & ->)].
    + exists ((Z.pos <$> ps) ++ [-1]), [], 0, 0, [].
      rewrite imap_app, length_app, !length_fmap. simpl.
      rewrite Nat.add_0_r, zip_with_nil_r.
      split_and!; rewrite ?app_nil_r; first [done | simpl; lia | apply prefix_nil | by eexists [_]].
    + rewrite sync_barrier.
      exists (Z.pos <$> ps), rs, (-1), 0, [EvFork ReduceWorker (-1)].
      rewrite length_fmap. split_and!; rewrite ?app_nil_r; first [done | simpl; lia | apply prefix_nil | by eexists [_]].
  - done.
  - destruct Hspec as (_ & ps & rs & t & Hps & Htrace & Hcase).
    eexists. split; [exact Htrace|].
    rewrite !List.filter_app, sync_spawn, sync_barrier.
    destruct Hcase as [(Hrs & ->) | (Hrs & pr & ->)]; simpl.
    + exists (Z.pos <$> ps), (take (length ps) rs), 0, 0, [].
      rewrite length_fmap, length_take, take_ge by lia.
      split_and!; rewrite ?app_nil_r; first [done | simpl; lia | apply prefix_nil | by eexists [_]].
    + exists (Z.pos <$> ps), rs, (Z.pos pr), 0, [EvFork ReduceWorker (Z.pos pr)].
      rewrite length_fmap. split_and!; rewrite ?app_nil_r; first [done | simpl; lia | apply prefix_nil | by eexists [_]].
Qed.



(** The word finder without a word: both map functions return -1, both
    workers exit with [ERROR], the coordinator prints one diagnostic after
    the wait for each of them, and the reduce worker still runs, on two
    empty intermediate files. *)
Example failing_workers_trace :
  let o := mapreduce env0 (Some (word_finder_job_without_word [] "input.txt" 2))
             (Some result0) (boot words_fs) in
  returned o = true
  /\ w_trace (outcome_world o)
     = [EvFork (MapWorker 0) 1; EvStore (MapWorker 0) 1;
        EvFork (MapWorker 1) 2; EvStore (MapWorker 1) 2;
        EvWait 1 (Some 65280); EvStderr (map_failed_msg 0);
        EvWait 2 (Some 65280); EvStderr (map_failed_msg 1);
        EvFork ReduceWorker 1; EvStore ReduceWorker 1; EvWait 1 (Some 0)]
  /\ w_fs (outcome_world o) !! "mr.rst" = Some [].
Proof. split_and!; vm_compute; reflexivity. Qed.

(** The second [fork] fails: the process exits with [ERROR] right after
    the diagnostic, and the first worker is never waited for. *)
Example fork_failure_trace :
  let o := mapreduce env_fork_fails (Some (letter_counter_job "input.txt" 2))
             (Some result0) (boot letters_fs) in
  exit_status o = Some ERROR
  /\ w_trace (outcome_world o)
     = [EvFork (MapWorker 0) 1; EvStore (MapWorker 0) 1;
        EvFork (MapWorker 1) (-1); EvStderr (fork_failed_msg (MapWorker 1))].
Proof. split; vm_compute; reflexivity. Qed.

(** C6.  After a job that returns, on an operating system that hands out
    fresh identifiers, the caller's array of [N] entries holds [N] distinct
    identifiers; entry [i] is what the [i]-th [fork] returned, stored right
    after that call and before the first wait. *)
Theorem worker_pids_recorded env spec result w input N result' w' :
  w_fs w !! input_data_filepath spec = Some input ->
  split_num spec = Z.of_nat N -> (0 < N)%nat ->
  os_sound env -> length (map_worker_pid result) = N ->
  mapreduce env (Some spec) (Some result) w = Returned result' w' ->
  length (map_worker_pid result') = N
  /\ NoDup (map_worker_pid result')
  /\ exists (reported : list (option Z)) (pr sr : Z),
       length reported = N
       /\ w_trace w' = w_trace w ++ spawn_events 0 (map_worker_pid result')
            ++ barrier_events 0 (zip (map_worker_pid result') reported) (env_uninit env)
            ++ reduce_events pr sr.
Proof.
  intros Hinput Hnum HN Hos Hlen Hrun.
  pose proof (mapreduce_spec env spec result w input N Hinput Hnum HN) as Hspec.
  rewrite Hrun in Hspec.
  destruct Hspec as (ps & rs & pr & sr & Hps & Hrs & Hres & _ & Htrace & Hsound).
  destruct (Hsound Hos) as [Hnd _].
  assert (Hpids : map_worker_pid result' = Z.pos <$> ps).
  { rewrite Hres, <- (app_nil_r (map_worker_pid result)).
    rewrite list_inserts_0_r by (rewrite length_fmap; lia). apply app_nil_r. }
  rewrite Hpids. split_and!.
  - by rewrite length_fmap.
  - apply NoDup_fmap_2; [|done]. intros p q [=]. done.
  - by exists rs, (Z.pos pr), sr.
Qed.

Lemma worker_pids_recorded_witness :
  exists result' w',
    os_sound env0 /\ length (map_worker_pid result0) = 2%nat
    /\ mapreduce env0 (Some (letter_counter_job "input.txt" 2)) (Some result0)
         (boot letters_fs) = Returned result' w'
    /\ length (map_worker_pid result') = 2%nat
    /\ NoDup (map_worker_pid result')
    /\ exists (reported : list (option Z)) (pr sr : Z),
         length reported = 2%nat
         /\ w_trace w' = w_trace (boot letters_fs)
              ++ spawn_events 0 (map_worker_pid result')
              ++ barrier_events 0 (zip (map_worker_pid result') reported) (env_uninit env0)
              ++ reduce_events pr sr.
Proof.
  destruct (mapreduce env0 (Some (letter_counter_job "input.txt" 2)) (Some result0)
              (boot letters_fs)) as [result' w'| | |] eqn:Hrun;
    try (apply (f_equal returned) in Hrun; vm_compute in Hrun; discriminate Hrun).
  exists result', w'. split; [apply os_sound_fresh|]. split; [reflexivity|].
  split; [reflexivity|].
  exact (worker_pids_recorded env0 (letter_counter_job "input.txt" 2) result0
           (boot letters_fs) letters_input 2 result' w' eq_refl eq_refl
           (Nat.lt_0_succ 1) (os_sound_fresh _ _) eq_refl Hrun).
Defined.

(** C9.  After a job that returns, the coordinator has printed the
    diagnostic for map worker [i] exactly when the status reported for it
    says "exited normally" with an exit status other than [SUCCESS], and
    the same for the reduce worker: a worker that did not exit normally,
    such as one killed by a signal, gets no diagnostic. *)
Theorem signalled_worker_not_logged env spec result w input N result' w' :
  w_fs w !! input_data_filepath spec = Some input ->
  split_num spec = Z.of_nat N -> (0 < N)%nat ->
  os_sound env ->
  mapreduce env (Some spec) (Some result) w = Returned result' w' ->
  exists (pids statuses : list Z) (pr sr : Z) (t : list event),
    length pids = N /\ length statuses = N
    /\ w_trace w' = w_trace w ++ t
    /\ t = spawn_events 0 pids
           ++ barrier_events 0 (zip pids (Some <$> statuses)) (env_uninit env)
           ++ reduce_events pr sr
    /\ (forall i s, statuses !! i = Some s ->
          (map_failed_msg i ∈ diagnostics t
           <-> WIFEXITED s = true /\ WEXITSTATUS s <> SUCCESS))
    /\ (reduce_failed_msg ∈ diagnostics t
        <-> WIFEXITED sr = true /\ WEXITSTATUS sr <> SUCCESS).
Proof.
  intros Hinput Hnum HN Hos Hrun.
  pose proof (mapreduce_spec env spec result w input N Hinput Hnum HN) as Hspec.
  rewrite Hrun in Hspec.
  destruct Hspec as (ps & rs & pr & sr & Hps & Hrs & _ & _ & Htrace & Hsound).
  destruct (Hsound Hos) as [_ Hsome]. apply all_reported in Hsome as [statuses ->].
  rewrite length_fmap in Hrs.
  exists (Z.pos <$> ps), statuses, (Z.pos pr), sr. eexists.
  split_and!; [by rewrite length_fmap|done|exact Htrace|done| |];
    rewrite !diagnostics_app, diagnostics_spawn, diagnostics_reduce;
    rewrite diagnostics_barrier by (rewrite length_fmap; lia); simpl.
  - intros i s Hi. rewrite elem_of_app, <- failed_spec, failed_msgs_elem. split.
    + intros [(j & s' & -> & Hj & Hs') | Hin]; [by simplify_eq/=|].
      destruct (failed sr); [|by apply elem_of_nil in Hin].
      apply list_elem_of_singleton in Hin. by apply map_failed_msg_not_reduce in Hin.
    + intros Hs. left. by exists i, s.
  - rewrite elem_of_app, <- failed_spec. split.
    + intros [Hin | Hin].
      * apply failed_msgs_map in Hin as [k Hk].
        symmetry in Hk. by apply map_failed_msg_not_reduce in Hk.
      * destruct (failed sr); [done|by apply elem_of_nil in Hin].
    + intros ->. right. by apply list_elem_of_singleton.
Qed.

Lemma signalled_worker_not_logged_witness :
  exists result' w',
    os_sound env_sigkill
    /\ mapreduce env_sigkill (Some (letter_counter_job "input.txt" 2)) (Some result0)
         (boot letters_fs) = Returned result' w'
    /\ exists (pids statuses : list Z) (pr sr : Z) (t : list event),
         length pids = 2%nat /\ length statuses = 2%nat
         /\ w_trace w' = w_trace (boot letters_fs) ++ t
         /\ t = spawn_events 0 pids
                ++ barrier_events 0 (zip pids (Some <$> statuses)) (env_uninit env_sigkill)
                ++ reduce_events pr sr
         /\ (forall i s, statuses !! i = Some s ->
               (map_failed_msg i ∈ diagnostics t
                <-> WIFEXITED s = true /\ WEXITSTATUS s <> SUCCESS))
         /\ (reduce_failed_msg ∈ diagnostics t
             <-> WIFEXITED sr = true /\ WEXITSTATUS sr <> SUCCESS).
Proof.
  destruct (mapreduce env_sigkill (Some (letter_counter_job "input.txt" 2)) (Some result0)
              (boot letters_fs)) as [result' w'| | |] eqn:Hrun;
    try (apply (f_equal returned) in Hrun; vm_compute in Hrun; discriminate Hrun).
  exists result', w'. split; [apply os_sound_fresh|]. split; [reflexivity|].
  exact (signalled_worker_not_logged env_sigkill (letter_counter_job "input.txt" 2)
           result0 (boot letters_fs) letters_input 2 result' w' eq_refl eq_refl
           (Nat.lt_0_succ 1) (os_sound_fresh _ _) Hrun).
Defined.

(** The second map worker is killed by signal 9: the coordinator prints
    nothing for it.  Its intermediate file is missing, so the reduce worker
    exits with [ERROR], and that is reported. *)
Example sigkill_trace :
  let o := mapreduce env_sigkill (Some (letter_counter_job "input.txt" 2)) (Some result0)
             (boot letters_fs) in
  returned o = true
  /\ w_trace (outcome_world o)
     = [EvFork (MapWorker 0) 1; EvStore (MapWorker 0) 1;
        EvFork (MapWorker 1) 2; EvStore (MapWorker 1) 2;
        EvWait 1 (Some 0); EvWait 2 (Some 9);
        EvFork ReduceWorker 1; EvStore ReduceWorker 1; EvWait 1 (Some 65280);
        EvStderr reduce_failed_msg]
  /\ w_fs (outcome_world o) !! "mr-1.itm" = None
  /\ w_fs (outcome_world o) !! "mr.rst" = None.
Proof. split_and!; vm_compute; reflexivity. Qed.

(** ** The data flow of a job *)

Section Pipeline.
Variable env : environment.
Variable spec : MAPREDUCE_SPEC.
Hypothesis Hforks : forks_succeed env.
Hypothesis Hkill : nobody_killed env.

Local Arguments map_worker : simpl never.
Local Arguments reduce_worker : simpl never.

Lemma spawn_loop_fs todo : forall i map_worker_pids result w,
  match spawn_loop env spec todo i map_worker_pids result w with
  | Returned _ w' =>
      w_fs w' = (map_phase spec todo i (w_fs w)).1
      /\ ((map_phase spec todo i (w_fs w)).2 = true -> no_hang w -> no_hang w')
  | _ => False
  end.
Proof.
  induction todo as [|todo IH]; intros i pids result w; [by simpl|].
  cbn [spawn_loop map_phase]. unfold bind at 1, fork.
  destruct (Hforks (w_forks w) (dom (w_children w))) as [p ->].
  unfold run_child. rewrite Hkill.
  change (Z.pos p <? 0) with false. cbv iota beta zeta. unfold bind at 1, emit.
  cbn [w_fs w_children w_child_stderr w_forks w_trace].
  match goal with |- context [spawn_loop env spec todo (S i) ?l ?r ?w1] =>
    specialize (IH (S i) l r w1);
    destruct (spawn_loop env spec todo (S i) l r w1) as [? w'| | |]
  end; try done.
  cbn [w_fs] in IH. destruct IH as [Hfs Hhang].
  destruct (map_phase spec todo (S i) (cr_fs (map_worker spec i (w_fs w))))
    as [fs' exited] eqn:Hphase.
  simpl in *. split; [done|].
  destruct (cr_exit (map_worker spec i (w_fs w))) as [code|]; [|done].
  intros -> Hw. apply Hhang; [done|].
  unfold no_hang. cbn [w_children]. apply map_Forall_insert_2; [by eexists|done].
Qed.

Lemma reduce_phase_fs status result w :
  is_Some (cr_exit (reduce_worker spec (split_num spec) (w_fs w))) ->
  exists result' w',
    reduce_phase env spec status result w = Returned result' w'
    /\ w_fs w' = cr_fs (reduce_worker spec (split_num spec) (w_fs w)).
Proof.
  intros [code Hcode]. unfold reduce_phase, bind at 1, fork.
  destruct (Hforks (w_forks w) (dom (w_children w))) as [p ->].
  unfold run_child. rewrite Hkill, Hcode.
  change (Z.pos p <? 0) with false. cbv iota beta zeta.
  unfold bind at 1, emit. unfold bind at 1, waitpid. cbn [w_children w_trace].
  rewrite lookup_insert_eq. simpl.
  destruct (failed (W_EXITCODE code)); unfold bind, emit, ret; by eexists _, _.
Qed.

(** When every [fork] succeeds and no worker is killed or hangs, the job
    returns and leaves the files of [pipeline]. *)
Lemma mapreduce_pipeline (result : MAPREDUCE_RESULT) (w : world)
    (fs' : gmap string bytes) :
  no_hang w -> 0 < split_num spec ->
  pipeline spec (w_fs w) = Some fs' ->
  exists result' w',
    mapreduce env (Some spec) (Some result) w = Returned result' w'
    /\ w_fs w' = fs'.
Proof.
  intros Hw HN. unfold pipeline, mapreduce, bind at 1, get_fs.
  destruct (w_fs w !! input_data_filepath spec) as [input|]; [|done].
  replace (split_num spec =? 0) with false by lia.
  replace (split_num spec <? 0) with false by lia.
  set (n := Z.to_nat (split_num spec)).
  set (split_size := Z.of_nat (length input) ÷ split_num spec).
  unfold bind at 1, set_fs. unfold bind at 1.
  match goal with |- context [spawn_loop env spec n O ?l ?r ?w1] =>
    pose proof (spawn_loop_fs n O l r w1) as Hfs;
    pose proof (spawn_loop_spec env spec n O l r w1) as Hspawn;
    destruct (spawn_loop env spec n O l r w1) as [[pids result1] w1'| | |]
  end; try done.
  cbn [w_fs w_children] in Hfs. destruct Hfs as [Hfs1 Hhang1].
  destruct (map_phase spec n 0 (split_loop n 0 split_size input (w_fs w)))
    as [fs2 exited] eqn:Hphase. simpl in Hfs1, Hhang1.
  destruct (cr_exit (reduce_worker spec (split_num spec) fs2)) as [code|] eqn:Hcode;
    [|done].
  destruct exited; [|done]. intros [= <-].
  destruct Hspawn as (ps & Hlen & Hpids & _).
  assert (Hpids' : pids = [] ++ (Z.pos <$> ps) ++ []).
  { rewrite Hpids, app_nil_r. simpl.
    rewrite <- (app_nil_r (replicate n (env_uninit env))).
    rewrite list_inserts_0_r by (by rewrite length_fmap, length_replicate).
    by rewrite app_nil_r. }
  unfold bind at 1.
  pose proof (wait_loop_spec n O [] ps [] (env_uninit env) w1' eq_refl Hlen) as Hwait.
  rewrite <- Hpids' in Hwait.
  destruct (wait_loop n 0 pids (env_uninit env) w1') as [status2 w2|? ?| |w2];
    [|done|done|].
  2:{ exfalso. apply Hwait, Hhang1; done. }
  destruct Hwait as (rs & _ & _ & _ & _ & _ & Hfs2).
  destruct (reduce_phase_fs status2 result1 w2) as (result' & w' & Hrun & Hfs3).
  { rewrite Hfs2, Hfs1, Hcode. by eexists. }
  exists result', w'. split; [done|]. by rewrite Hfs3, Hfs2, Hfs1.
Qed.

End Pipeline.

Lemma forks_succeed_fresh kill uninit :
  forks_succeed {| env_fork := fun _ live => Some (fresh live);
                   env_kill := kill; env_uninit := uninit |}.
Proof. intros k live. by eexists. Qed.

Lemma nobody_killed_env0 : nobody_killed env0.
Proof. by intros p. Qed.

(** C7.  Letter counting, end to end: with the input "AAAB\nBBCC\n" and two
    splits, whatever identifiers the workers get, the job returns and
    leaves the five files of the claim. *)
Theorem letter_counting_end_to_end env result :
  forks_succeed env -> nobody_killed env ->
  exists result' w',
    mapreduce env (Some (letter_counter_job "input.txt" 2)) (Some result)
      (boot letters_fs) = Returned result' w'
    /\ w_fs w' !! "split-0" = Some (B "AAAB" ++ [nl])
    /\ w_fs w' !! "split-1" = Some (B "BBCC" ++ [nl])
    /\ w_fs w' !! "mr-0.itm" = Some (B "A 3" ++ [nl] ++ B "B 1" ++ [nl])
    /\ w_fs w' !! "mr-1.itm" = Some (B "B 2" ++ [nl] ++ B "C 2" ++ [nl])
    /\ w_fs w' !! "mr.rst" = Some (B "A 3" ++ [nl] ++ B "B 3" ++ [nl] ++ B "C 2" ++ [nl]).
Proof.
  intros Hforks Hkill.
  set (job := letter_counter_job "input.txt" 2).
  destruct (pipeline job letters_fs) as [fs'|] eqn:Hpipe.
  2:{ assert (H : is_Some (pipeline_file job letters_fs "mr.rst"))
        by (vm_compute; by eexists).
      unfold pipeline_file in H. rewrite Hpipe in H. by destruct H. }
  destruct (mapreduce_pipeline env job Hforks Hkill result (boot letters_fs) fs'
              (no_hang_boot _) ltac:(done) Hpipe) as (result' & w' & Hrun & Hfs).
  exists result', w'. split; [done|]. rewrite Hfs.
  split_and!;
    match goal with |- _ !! ?name = Some ?content =>
      assert (H : pipeline_file job letters_fs name = Some content)
        by (vm_compute; reflexivity);
      unfold pipeline_file in H; rewrite Hpipe in H; exact H
    end.
Qed.

Lemma letter_counting_end_to_end_witness :
  forks_succeed env0 /\ nobody_killed env0
  /\ exists result' w',
       mapreduce env0 (Some (letter_counter_job "input.txt" 2)) (Some result0)
         (boot letters_fs) = Returned result' w'
       /\ w_fs w' !! "split-0" = Some (B "AAAB" ++ [nl])
       /\ w_fs w' !! "split-1" = Some (B "BBCC" ++ [nl])
       /\ w_fs w' !! "mr-0.itm" = Some (B "A 3" ++ [nl] ++ B "B 1" ++ [nl])
       /\ w_fs w' !! "mr-1.itm" = Some (B "B 2" ++ [nl] ++ B "C 2" ++ [nl])
       /\ w_fs w' !! "mr.rst"
          = Some (B "A 3" ++ [nl] ++ B "B 3" ++ [nl] ++ B "C 2" ++ [nl]).
Proof.
  split; [apply forks_succeed_fresh|]. split; [apply nobody_killed_env0|].
  apply (letter_counting_end_to_end env0 result0);
    [apply forks_succeed_fresh | apply nobody_killed_env0].
Defined.

(** C8.  Word search for "cat", end to end: with the two lines
    "the cat sat" and "concatenate" and any split count from 1 to 24 (the
    length of the input), the result file holds the line "the cat sat" and
    nothing else.  [strstr] does find "cat" inside "concatenate", at offset
    3; it is the test of the neighbouring bytes that rejects it. *)
Theorem word_search_end_to_end env result stack (N : Z) :
  forks_succeed env -> nobody_killed env -> 1 <= N <= 24 ->
  exists result' w',
    mapreduce env (Some (word_finder_job stack "input.txt" N (B "cat"))) (Some result)
      (boot words_fs) = Returned result' w'
    /\ w_fs w' !! "mr.rst" = Some (B "the cat sat" ++ [nl])
    /\ strstr (B "concatenate") (B "cat") = Some 3%nat
    /\ word_boundaries (B "concatenate") 3 3 = false.
Proof.
  intros Hforks Hkill HN.
  set (job := word_finder_job stack "input.txt" N (B "cat")).
  assert (Hfile : pipeline_file job words_fs "mr.rst" = Some (B "the cat sat" ++ [nl])).
  { assert (Hcases : Exists (eq N) (Z.of_nat <$> seq 1 24)).
    { apply Exists_exists. exists N. split; [|done].
      apply list_elem_of_fmap. exists (Z.to_nat N). split; [lia|].
      apply elem_of_seq. lia. }
    subst job. clear HN. simpl in Hcases.
    repeat (apply Exists_cons in Hcases as [-> | Hcases]; [vm_compute; reflexivity|]).
    by apply Exists_nil in Hcases. }
  unfold pipeline_file in Hfile.
  destruct (pipeline job words_fs) as [fs'|] eqn:Hpipe; [|done].
  destruct (mapreduce_pipeline env job Hforks Hkill result (boot words_fs) fs'
              (no_hang_boot _) ltac:(simpl; lia) Hpipe) as (result' & w' & Hrun & Hfs).
  exists result', w'. rewrite Hfs. split_and!; [done|done|reflexivity|reflexivity].
Qed.

Lemma word_search_end_to_end_witness :
  forks_succeed env0 /\ nobody_killed env0 /\ 1 <= 2 <= 24
  /\ exists result' w',
       mapreduce env0 (Some (word_finder_job [] "input.txt" 2 (B "cat"))) (Some result0)
         (boot words_fs) = Returned result' w'
       /\ w_fs w' !! "mr.rst" = Some (B "the cat sat" ++ [nl])
       /\ strstr (B "concatenate") (B "cat") = Some 3%nat
       /\ word_boundaries (B "concatenate") 3 3 = false.
Proof.
  split; [apply forks_succeed_fresh|]. split; [apply nobody_killed_env0|].
  split; [lia|].
  apply (word_search_end_to_end env0 result0 [] 2);
    [apply forks_succeed_fresh | apply nobody_killed_env0 | lia].
Defined.

(** With more splits than input bytes the threshold is 0: the copy loop
    never reads, every split is empty, and so is the result. *)
Example word_search_too_many_splits :
  pipeline_file (word_finder_job [] "input.txt" 25 (B "cat")) words_fs "split-0" = Some []
  /\ pipeline_file (word_finder_job [] "input.txt" 25 (B "cat")) words_fs "mr.rst"
     = Some [].
Proof. split; vm_compute; reflexivity. Qed.

(** ** Intermediate files *)

Lemma split_not_intermediate i j : split_filename i <> intermediate_filename j.
Proof. unfold split_filename, intermediate_filename. simpl. discriminate. Qed.

Lemma intermediate_filename_inj i j :
  intermediate_filename i = intermediate_filename j -> i = j.
Proof.
  unfold intermediate_filename. intros H.
  apply (inj (String.append "mr-")) in H.
  apply string_app_cancel_r in H. by apply (inj pretty) in H.
Qed.

Lemma split_loop_other todo : forall i split_size stream fs name,
  (forall j, name <> split_filename j) ->
  split_loop todo i split_size stream fs !! name = fs !! name.
Proof.
  induction todo as [|todo IH]; intros i split_size stream fs name Hname; simpl; [done|].
  destruct (copy_records split_size stream) as [split_file rest].
  rewrite IH by done. apply lookup_insert_ne. by apply not_eq_sym.
Qed.

Lemma map_worker_other spec i fs name :
  name <> intermediate_filename i ->
  cr_fs (map_worker spec i fs) !! name = fs !! name.
Proof.
  intros Hname. unfold map_worker.
  destruct (fs !! split_filename i) as [split|]; [|done].
  destruct (map_func spec (usr_data spec) split) as [written [st|]]; simpl.
  - destruct (st =? SUCCESS); simpl;
      by rewrite !lookup_insert_ne by (by apply not_eq_sym).
  - by rewrite !lookup_insert_ne by (by apply not_eq_sym).
Qed.

Lemma reduce_worker_other spec n fs name :
  name <> "mr.rst" ->
  cr_fs (reduce_worker spec n fs) !! name = fs !! name.
Proof.
  intros Hname. unfold reduce_worker.
  destruct (open_intermediate _ _ _) as [missing|files]; [done|].
  destruct (reduce_func spec files n) as [written [st|]]; simpl.
  - destruct (st =? SUCCESS); simpl;
      by rewrite !lookup_insert_ne by (by apply not_eq_sym).
  - by rewrite !lookup_insert_ne by (by apply not_eq_sym).
Qed.

Lemma map_phase_other spec todo : forall i fs name,
  (forall j, name <> intermediate_filename j) ->
  (map_phase spec todo i fs).1 !! name = fs !! name.
Proof.
  induction todo as [|todo IH]; intros i fs name Hname; simpl; [done|].
  specialize (IH (S i) (cr_fs (map_worker spec i fs)) name Hname).
  destruct (map_phase spec todo (S i) (cr_fs (map_worker spec i fs))) as [fs' exited].
  simpl in *. rewrite IH. by apply map_worker_other.
Qed.

(** The split files a job leaves are those of [partition]. *)
Lemma pipeline_splits spec fs fs' input (N i : nat) s :
  fs !! input_data_filepath spec = Some input ->
  split_num spec = Z.of_nat N ->
  pipeline spec fs = Some fs' ->
  partition input N !! i = Some s ->
  fs' !! split_filename i = Some s.
Proof.
  intros Hinput Hnum Hpipe Hi. unfold pipeline in Hpipe.
  rewrite Hinput, Hnum, Nat2Z.id in Hpipe.
  pose proof (map_phase_other spec N 0
                (split_loop N 0 (Z.of_nat (length input) ÷ Z.of_nat N) input fs)
                (split_filename i) (split_not_intermediate i)) as Hmap.
  destruct (map_phase spec N 0 _) as [fs2 exited]. simpl in Hmap.
  destruct (cr_exit (reduce_worker spec (Z.of_nat N) fs2)); [|done].
  destruct exited; [|done]. injection Hpipe as <-.
  rewrite reduce_worker_other by (unfold split_filename; simpl; discriminate).
  rewrite Hmap. by apply (split_loop_files N 0 _ input fs i s).
Qed.

(** C5 (as amended).  The partition phase prepares the name of
    mr-[i].itm and leaves the file alone.  Map worker [i], once it has
    opened its split, creates or truncates the file and leaves in it what
    its map function wrote; it changes no other file, and no other map
    worker changes mr-[i].itm. *)
Theorem intermediate_created_by_its_worker spec i fs split :
  fs !! split_filename i = Some split ->
  let written := (map_func spec (usr_data spec) split).1 in
  cr_fs (map_worker spec i fs) !! intermediate_filename i = Some written
  /\ (forall name, name <> intermediate_filename i ->
        cr_fs (map_worker spec i fs) !! name = fs !! name)
  /\ (forall j, j <> i ->
        cr_fs (map_worker spec j fs) !! intermediate_filename i
        = fs !! intermediate_filename i)
  /\ (forall todo first split_size stream,
        split_loop todo first split_size stream fs !! intermediate_filename i
        = fs !! intermediate_filename i).
Proof.
  intros Hsplit written. split_and!.
  - subst written. unfold map_worker. rewrite Hsplit.
    destruct (map_func spec (usr_data spec) split) as [out [st|]]; simpl.
    + destruct (st =? SUCCESS); simpl; apply lookup_insert_eq.
    + apply lookup_insert_eq.
  - intros name Hname. by apply map_worker_other.
  - intros j Hj. apply map_worker_other. intros H.
    by apply intermediate_filename_inj in H.
  - intros todo first split_size stream. apply split_loop_other.
    intros j H. symmetry in H. by apply split_not_intermediate in H.
Qed.

Lemma intermediate_created_by_its_worker_witness :
  let spec := letter_counter_job "input.txt" 2 in
  let fs : gmap string bytes := {[ "split-0" := B "AAAB" ++ [nl] ]} in
  fs !! split_filename 0 = Some (B "AAAB" ++ [nl])
  /\ cr_fs (map_worker spec 0 fs) !! intermediate_filename 0
     = Some (map_func spec (usr_data spec) (B "AAAB" ++ [nl])).1
  /\ (forall name, name <> intermediate_filename 0 ->
        cr_fs (map_worker spec 0 fs) !! name = fs !! name)
  /\ (forall j, j <> 0%nat ->
        cr_fs (map_worker spec j fs) !! intermediate_filename 0
        = fs !! intermediate_filename 0)
  /\ (forall todo first split_size stream,
        split_loop todo first split_size stream fs !! intermediate_filename 0
        = fs !! intermediate_filename 0).
Proof.
  split; [reflexivity|].
  apply (intermediate_created_by_its_worker (letter_counter_job "input.txt" 2) 0
           {[ "split-0" := B "AAAB" ++ [nl] ]} (B "AAAB" ++ [nl])).
  reflexivity.
Defined.

(** C5 as stated fails.  When every worker is killed before it runs its
    first instruction, the job still returns: the coordinator has written
    the split files, and no intermediate file exists at any time. *)
Lemma intermediate_absent_before_workers :
  let o := mapreduce env_killall (Some (letter_counter_job "input.txt" 2)) (Some result0)
             (boot letters_fs) in
  returned o = true
  /\ w_trace (outcome_world o)
     = [EvFork (MapWorker 0) 1; EvStore (MapWorker 0) 1;
        EvFork (MapWorker 1) 2; EvStore (MapWorker 1) 2;
        EvWait 1 (Some 9); EvWait 2 (Some 9);
        EvFork ReduceWorker 1; EvStore ReduceWorker 1; EvWait 1 (Some 9)]
  /\ w_fs (outcome_world o) !! "split-0" = Some (B "AAAB" ++ [nl])
  /\ w_fs (outcome_world o) !! "split-1" = Some (B "BBCC" ++ [nl])
  /\ w_fs (outcome_world o) !! "mr-0.itm" = None
  /\ w_fs (outcome_world o) !! "mr-1.itm" = None.
Proof. split_and!; vm_compute; reflexivity. Qed.

(** ** The word finder and a last line without newline *)

(** C10.  A split that ends with a record of fewer than 1023 bytes without
    its newline: [word_finder_map] writes and returns exactly what it does
    on the split without that record. *)
Theorem unterminated_last_line_dropped stack word (split tail : bytes) :
  whole_records split -> nl ∉ tail -> (length tail < 1023)%nat ->
  word_finder_map stack (Some word) (split ++ tail)
  = word_finder_map stack (Some word) split.
Proof.
  intros Hsplit Hnl Hlen. unfold word_finder_map.
  rewrite !finder_loop_fold by done. rewrite fold_left_app.
  set (st0 := {| current_line := []; original_line_copy := stack;
                 finder_out := []; finder_hung := false |}).
  set (st := fold_left (finder_byte (cstr word)) split st0).
  assert (Hline : finder_hung st = false -> current_line st = []).
  { subst st. destruct Hsplit as [-> | Hlast]; [done|].
    apply last_Some in Hlast as [s ->]. apply finder_after_newline. }
  destruct (finder_hung st) eqn:Hhung.
  - rewrite fold_finder_hung by done. by rewrite Hhung.
  - rewrite finder_tail; [done|done|done|].
    rewrite Hline by done. unfold LINE_SIZE. cbn [length]. lia.
Qed.

Lemma unterminated_last_line_dropped_witness :
  whole_records (B "no match" ++ [nl]) /\ (nl ∉ B "the cat sat")
  /\ (length (B "the cat sat") < 1023)%nat
  /\ word_finder_map [] (Some (B "cat")) ((B "no match" ++ [nl]) ++ B "the cat sat")
     = word_finder_map [] (Some (B "cat")) (B "no match" ++ [nl]).
Proof.
  assert (H1 : whole_records (B "no match" ++ [nl])) by (by right).
  assert (H2 : nl ∉ (B "the cat sat"))
    by (apply (bool_decide_unpack _); vm_compute; exact I).
  assert (H3 : (length (B "the cat sat") < 1023)%nat) by (simpl; lia).
  split; [exact H1|]. split; [exact H2|]. split; [exact H3|].
  exact (unterminated_last_line_dropped [] (B "cat") (B "no match" ++ [nl])
           (B "the cat sat") H1 H2 H3).
Defined.

(** The matching line is lost when its newline is missing. *)
Example finder_unterminated stack :
  word_finder_map stack (Some (B "cat")) (B "the cat sat") = ([], Some 0)
  /\ word_finder_map stack (Some (B "cat")) (B "the cat sat" ++ [nl])
     = (B "the cat sat" ++ [nl], Some 0).
Proof. split; vm_compute; reflexivity. Qed.

(** * Further properties *)

(** ** The partitioner on arbitrary NUL-free input *)

(** The loop of lines 61-64 on a file without NUL bytes, whatever the
    length of its records: what it appends is the part of the stream it
    consumed, and it stops with the threshold reached or nothing left. *)
Lemma copy_loop_consumed fuel : forall split_size bytes_read split_file stream out rest,
  no_nul stream = true -> (length stream <= fuel)%nat ->
  copy_loop fuel split_size bytes_read split_file stream = (out, rest) ->
  exists copied,
    out = split_file ++ copied /\ stream = copied ++ rest
    /\ no_nul rest = true
    /\ (split_size <= bytes_read + Z.of_nat (length copied) \/ rest = []).
Proof.
  induction fuel as [|fuel IH]; intros split_size bytes_read split_file stream out rest
    Hnul Hlen.
  - destruct stream; [|simpl in Hlen; lia]. cbn [copy_loop]. intros [= <- <-].
    exists []. rewrite app_nil_r. auto.
  - cbn [copy_loop]. destruct (bytes_read <? split_size) eqn:Hlt.
    2:{ intros [= <- <-]. exists []. rewrite app_nil_r.
        split_and!; auto. left. simpl. lia. }
    destruct (fgets BUFFER_SIZE stream) as [[buffer rest1]|] eqn:E.
    2:{ apply fgets_None in E as ->. intros [= <- <-]. exists [].
        rewrite app_nil_r. auto. }
    assert (Hsize2 : (2 <= BUFFER_SIZE)%nat) by (unfold BUFFER_SIZE; lia).
    pose proof (fgets_shorter _ _ _ _ Hsize2 E) as Hshort.
    unfold fgets in E. destruct stream as [|c stream]; [done|].
    apply (inj Some) in E. apply fgets_store_app in E as Happ.
    rewrite Happ, no_nul_app in Hnul. apply andb_prop in Hnul as [Hnb Hnr].
    intros Hloop. unfold fputs, strlen in Hloop. rewrite (cstr_no_nul _ Hnb) in Hloop.
    apply IH in Hloop as (copied & -> & Hst & Hn & Hsize); [|done|simpl in *; lia].
    exists (buffer ++ copied). rewrite Happ, Hst, length_app, !app_assoc.
    split_and!; auto. destruct Hsize as [?|?]; [left; lia | by right].
Qed.

(** Lines 47-71 on a file without NUL bytes: the split files are
    consecutive pieces of the input, and something is left over at the end
    only when every split file reached the threshold. *)
Lemma split_files_consumed todo split_size : forall stream,
  no_nul stream = true ->
  let parts := split_files todo split_size stream in
  exists rest,
    stream = concat parts ++ rest
    /\ (rest = [] \/ Forall (fun s => split_size <= Z.of_nat (length s)) parts).
Proof.
  induction todo as [|todo IH]; intros stream Hnul; simpl.
  - exists stream. split; [done|]. by right.
  - destruct (copy_records split_size stream) as [s0 rest0] eqn:E.
    destruct (copy_loop_consumed _ _ _ _ _ _ _ Hnul (le_n _) E)
      as (copied & Hs0 & Hst & Hn & Hsize).
    simpl in Hs0. subst copied.
    destruct (IH rest0 Hn) as (rest & Hrest & Hall).
    exists rest. simpl. split; [by rewrite <- app_assoc, <- Hrest|].
    destruct Hall as [-> | Hall]; [by left|].
    destruct rest as [|c rest]; [by left|]. right. constructor; [|done].
    destruct Hsize as [?|Hr0]; [simpl in *; lia|].
    rewrite Hr0 in Hrest. by destruct (concat _).
Qed.

Lemma concat_length_ge (q : Z) (parts : list bytes) :
  Forall (fun s => q <= Z.of_nat (length s)) parts ->
  Z.of_nat (length parts) * q <= Z.of_nat (length (concat parts)).
Proof.
  induction 1 as [|s parts Hs _ IH]; simpl; [lia|]. rewrite length_app. lia.
Qed.

(** What the partitioner leaves out of a file without NUL bytes. *)
Lemma partition_rest (input : bytes) (N : nat) :
  no_nul input = true -> (0 < N)%nat ->
  exists rest,
    input = concat (partition input N) ++ rest
    /\ Z.of_nat (length rest) <= Z.of_nat (length input) mod Z.of_nat N.
Proof.
  intros Hnul HN. unfold partition.
  set (q := Z.of_nat (length input) ÷ Z.of_nat N).
  destruct (split_files_consumed N q input Hnul) as (rest & Hin & Hall).
  exists rest. split; [done|].
  pose proof (Z.mod_pos_bound (Z.of_nat (length input)) (Z.of_nat N) ltac:(lia)).
  destruct Hall as [-> | Hall]; [simpl; lia|].
  apply concat_length_ge in Hall. rewrite split_files_length in Hall.
  apply (f_equal (@length _)) in Hin. rewrite length_app in Hin.
  assert (Hq : q = Z.of_nat (length input) / Z.of_nat N)
    by (unfold q; apply Z.quot_div_nonneg; lia).
  pose proof (Z.div_mod (Z.of_nat (length input)) (Z.of_nat N) ltac:(lia)).
  rewrite <- Hq in *. nia.
Qed.

Lemma copy_records_zero (stream : bytes) : copy_records 0 stream = ([], stream).
Proof. unfold copy_records. by destruct stream. Qed.

(** X1.  On an input file without NUL bytes, whatever the length of its
    lines, the split files taken in index order are the input without its
    last bytes, and fewer bytes are left out than there are splits: at most
    the remainder of the file size by the split count. *)
Theorem partition_leaves_out_less_than_split_count (input : bytes) (N : nat) :
  no_nul input = true -> (0 < N)%nat ->
  exists rest,
    input = concat (partition input N) ++ rest
    /\ (length rest < N)%nat
    /\ Z.of_nat (length rest) <= Z.of_nat (length input) mod Z.of_nat N.
Proof.
  intros Hnul HN. destruct (partition_rest input N Hnul HN) as (rest & Hin & Hrest).
  exists rest. split_and!; [done| |done].
  pose proof (Z.mod_pos_bound (Z.of_nat (length input)) (Z.of_nat N) ltac:(lia)). lia.
Qed.

Lemma partition_leaves_out_less_than_split_count_witness :
  let input := B "ab" ++ [nl] ++ B "cd" ++ [nl] ++ B "efgh" ++ [nl] in
  no_nul input = true /\ (0 < 3)%nat
  /\ exists rest,
       input = concat (partition input 3) ++ rest
       /\ (length rest < 3)%nat
       /\ Z.of_nat (length rest) <= Z.of_nat (length input) mod Z.of_nat 3.
Proof.
  split; [reflexivity|]. split; [lia|].
  apply (partition_leaves_out_less_than_split_count
           (B "ab" ++ [nl] ++ B "cd" ++ [nl] ++ B "efgh" ++ [nl]) 3); [reflexivity|lia].
Defined.

(** X2.  With a single split, split-0 is the input file byte for byte,
    provided the file holds no NUL byte. *)
Theorem partition_single_split_copies_input (input : bytes) :
  no_nul input = true -> partition input 1 = [input].
Proof.
  intros Hnul. destruct (partition_rest input 1 Hnul ltac:(lia)) as (rest & Hin & Hrest).
  rewrite Z.mod_1_r in Hrest. destruct rest; [|simpl in Hrest; lia].
  pose proof (split_files_length 1 (Z.of_nat (length input) ÷ Z.of_nat 1) input) as Hlen.
  unfold partition in *.
  destruct (split_files 1 _ input) as [|s [|]]; try done.
  simpl in Hin. rewrite !app_nil_r in Hin. by subst.
Qed.

Lemma partition_single_split_copies_input_witness :
  no_nul (B "ab" ++ [nl] ++ B "c") = true
  /\ partition (B "ab" ++ [nl] ++ B "c") 1 = [B "ab" ++ [nl] ++ B "c"].
Proof.
  split; [reflexivity|].
  apply (partition_single_split_copies_input (B "ab" ++ [nl] ++ B "c")). reflexivity.
Defined.

(** X3.  With more splits than the input file has bytes the threshold of
    line 36 is zero: the copy loop never reads, and every split file is
    created empty, whatever the input holds. *)
Theorem partition_more_splits_than_bytes (input : bytes) (N : nat) :
  (length input < N)%nat -> partition input N = replicate N [].
Proof.
  intros Hlen. unfold partition. rewrite Z.quot_small by lia.
  generalize input. clear. induction N as [|N' IH]; intros stream; simpl; [done|].
  destruct (copy_records 0 stream) as [s rest] eqn:E.
  rewrite copy_records_zero in E. injection E as <- <-. by rewrite IH.
Qed.

Lemma partition_more_splits_than_bytes_witness :
  (length (B "ab" ++ [nl]) < 4)%nat
  /\ partition (B "ab" ++ [nl]) 4 = replicate 4 [].
Proof.
  split; [simpl; lia|].
  apply (partition_more_splits_than_bytes (B "ab" ++ [nl]) 4). simpl. lia.
Defined.

(** ** What [letter_counter_map] counts *)

Lemma ascii_eqb_of_nat (c : byte) (m : nat) :
  (m < 256)%nat -> (c =? ascii_of_nat m)%char = (nat_of_ascii c =? m)%nat.
Proof.
  intros Hm. destruct (Nat.eqb_spec (nat_of_ascii c) m) as [<- | Hne].
  - rewrite ascii_nat_embedding. apply Ascii.eqb_refl.
  - apply Ascii.eqb_neq. intros ->. by rewrite nat_ascii_embedding in Hne.
Qed.

Lemma char_val_nat (c : byte) :
  char_val c = if (nat_of_ascii c <? 128)%nat then Z.of_nat (nat_of_ascii c)
               else Z.of_nat (nat_of_ascii c) - 256.
Proof.
  unfold char_val, nat_of_ascii. rewrite N_nat_Z.
  destruct (Nat.ltb_spec (N.to_nat (N_of_ascii c)) 128),
           (Z.ltb_spec (Z.of_N (N_of_ascii c)) 128); lia.
Qed.

Lemma wrap_int_small (z : Z) : - 2 ^ 31 <= z < 2 ^ 31 -> wrap_int z = z.
Proof. intros Hz. unfold wrap_int. rewrite Z.mod_small; lia. Qed.

(** Lines 35-39 on the counter of one letter. *)
Lemma count_letter_lookup (letter_frequencies : list Z) (c : byte) (i : nat) :
  (i < 26)%nat ->
  count_letter letter_frequencies c !! i
  = (fun n => if is_letter i c then wrap_int (n + 1) else n) <$> letter_frequencies !! i.
Proof.
  intros Hi. unfold count_letter, is_letter.
  rewrite !ascii_eqb_of_nat by lia.
  change (char_val "A") with 65. change (char_val "Z") with 90.
  change (char_val "a") with 97. change (char_val "z") with 122.
  rewrite (char_val_nat c).
  pose proof (nat_ascii_bounded c) as Hc.
  set (n := nat_of_ascii c) in *.
  destruct (Nat.eqb_spec n (65 + i)), (Nat.eqb_spec n (97 + i)); cbn [orb];
    (destruct (Nat.ltb_spec n 128);
     [destruct (Z.leb_spec 65 (Z.of_nat n)), (Z.leb_spec (Z.of_nat n) 90),
               (Z.leb_spec 97 (Z.of_nat n)), (Z.leb_spec (Z.of_nat n) 122)
     |destruct (Z.leb_spec 65 (Z.of_nat n - 256)), (Z.leb_spec 97 (Z.of_nat n - 256))]);
    cbn [andb]; try lia;
    first [ rewrite list_lookup_alter_ne by lia
          | rewrite list_lookup_alter, decide_True by lia
          | idtac ];
    first [ by destruct (_ !! i) | do 2 f_equal; lia ].
Qed.

Lemma occurrences_cons i c s :
  occurrences i (c :: s) = (if is_letter i c then 1 else 0) + occurrences i s.
Proof. unfold occurrences. simpl. destruct (is_letter i c); simpl; lia. Qed.

Lemma occurrences_app i s t : occurrences i (s ++ t) = occurrences i s + occurrences i t.
Proof.
  unfold occurrences. rewrite List.filter_app, length_app. lia.
Qed.

Lemma occurrences_bounds i s : 0 <= occurrences i s <= Z.of_nat (length s).
Proof.
  unfold occurrences. pose proof (List.filter_length_le (is_letter i) s). lia.
Qed.

Lemma count_letter_length freq c : length (count_letter freq c) = length freq.
Proof.
  unfold count_letter. repeat case_match; by rewrite ?length_alter.
Qed.

Lemma fold_count_letter_length s : forall freq,
  length (fold_left count_letter s freq) = length freq.
Proof.
  induction s as [|c s IH]; intros freq; simpl; [done|].
  by rewrite IH, count_letter_length.
Qed.

(** The loop of lines 34-40 adds to each counter the occurrences of its
    letter, as long as no counter leaves the range of an [int]. *)
Lemma fold_count_letter_lookup s : forall freq i,
  (i < 26)%nat ->
  (forall n, freq !! i = Some n -> 0 <= n /\ n + occurrences i s < 2 ^ 31) ->
  fold_left count_letter s freq !! i = (fun n => n + occurrences i s) <$> freq !! i.
Proof.
  induction s as [|c s IH]; intros freq i Hi Hfreq.
  - simpl. destruct (freq !! i) as [n|]; [|done]. simpl. f_equal.
    unfold occurrences. simpl. lia.
  - cbn [fold_left]. pose proof (occurrences_bounds i s) as Hocc.
    rewrite IH; [|done|].
    + rewrite count_letter_lookup by done.
      destruct (freq !! i) as [n|]; [|done]. simpl. f_equal.
      specialize (Hfreq n eq_refl). rewrite occurrences_cons in *.
      destruct (is_letter i c); [|lia]. rewrite wrap_int_small; lia.
    + intros n. rewrite count_letter_lookup by done.
      destruct (freq !! i) as [m|]; [|done]. simpl. intros [= <-].
      specialize (Hfreq m eq_refl). rewrite occurrences_cons in *.
      destruct (is_letter i c); [|lia]. rewrite wrap_int_small; lia.
Qed.

Lemma repeat_replicate {A} (a : A) (n : nat) : repeat a n = replicate n a.
Proof. induction n as [|n IH]; simpl; by rewrite ?IH. Qed.

Lemma letter_map_loop_counts (split : bytes) :
  Z.of_nat (length split) < 2 ^ 31 ->
  letter_map_loop (length split) (repeat 0 26) split = letter_counts split.
Proof.
  intros Hlen. rewrite letter_map_loop_fold by done.
  apply list_eq. intros i. unfold letter_counts.
  destruct (decide (i < 26)%nat) as [Hi|Hi].
  - assert (H0 : repeat 0 26 !! i = Some 0).
    { rewrite repeat_replicate. by apply lookup_replicate_2. }
    rewrite fold_count_letter_lookup, H0; [|done|].
    + rewrite list_lookup_fmap, lookup_seq_lt by done. done.
    + rewrite H0. intros n [= <-]. pose proof (occurrences_bounds i split). lia.
  - rewrite !lookup_ge_None_2; [done| |].
    + rewrite length_fmap, length_seq. lia.
    + rewrite fold_count_letter_length, repeat_length. lia.
Qed.

(** X4.  On a split of fewer than 2^31 bytes [letter_counter_map] returns 0
    and writes, for each letter from A to Z that occurs in the split, in
    alphabetical order, one line with the letter in upper case and the
    number of its occurrences in either case; other bytes are not
    counted. *)
Theorem letter_counter_map_counts (usr_data : option bytes) (split : bytes) :
  Z.of_nat (length split) < 2 ^ 31 ->
  letter_counter_map usr_data split = (write_counts (letter_counts split), Some 0).
Proof.
  intros Hlen. unfold letter_counter_map. by rewrite letter_map_loop_counts.
Qed.

Lemma letter_counter_map_counts_witness :
  Z.of_nat (length (B "Hello, World")) < 2 ^ 31
  /\ letter_counter_map None (B "Hello, World")
     = (write_counts (letter_counts (B "Hello, World")), Some 0).
Proof.
  split; [reflexivity|].
  apply (letter_counter_map_counts None (B "Hello, World")). reflexivity.
Defined.

Example letter_counts_example :
  write_counts (letter_counts (B "Hello, World"))
  = B "D 1" ++ [nl] ++ B "E 1" ++ [nl] ++ B "H 1" ++ [nl] ++ B "L 3" ++ [nl]
    ++ B "O 2" ++ [nl] ++ B "R 1" ++ [nl] ++ B "W 1" ++ [nl].
Proof. vm_compute. reflexivity. Qed.

(** ** Printing a count and reading it back *)

Lemma pretty_N_char_digit (d : N) :
  (d < 10)%N ->
  isdigit (pretty_N_char d) = true
  /\ Z.of_N (N_of_ascii (pretty_N_char d)) - 48 = Z.of_N d
  /\ pretty_N_char d <> nl /\ pretty_N_char d <> NUL.
Proof.
  intros Hd.
  assert (d = 0 \/ d = 1 \/ d = 2 \/ d = 3 \/ d = 4 \/ d = 5 \/ d = 6 \/ d = 7
          \/ d = 8 \/ d = 9)%N as Hcases by lia.
  repeat (destruct Hcases as [-> | Hcases]; [by split_and!|]). subst. by split_and!.
Qed.

Lemma pretty_positive_go (count : Z) :
  0 < count -> pretty count = pretty_N_go (Z.to_N count) "".
Proof. by destruct count. Qed.

(** [%d] reads back the digits [%d] printed, most significant first. *)
Lemma read_digits_pretty_go (x : N) : forall s,
  read_digits 0 (B (pretty_N_go x s)) = read_digits (Z.of_N x) (B s).
Proof.
  induction (N.lt_wf_0 x) as [x _ IH]. intros s.
  destruct (decide (x = 0)%N) as [-> | Hx]; [by rewrite pretty_N_go_0|].
  rewrite pretty_N_go_step, IH by (try apply N.div_lt; lia).
  destruct (pretty_N_char_digit (x `mod` 10)) as (Hdigit & Hval & _).
  { apply N.mod_lt. lia. }
  change (B (String ?c ?s)) with (c :: B s). cbn [read_digits].
  rewrite Hdigit, Hval. f_equal.
  pose proof (N.div_mod x 10 ltac:(lia)). lia.
Qed.

Lemma pretty_N_go_head (x : N) : forall s,
  (0 < x)%N -> exists d rest, B (pretty_N_go x s) = d :: rest /\ isdigit d = true.
Proof.
  induction (N.lt_wf_0 x) as [x _ IH]. intros s Hx.
  rewrite pretty_N_go_step by done.
  destruct (decide (x `div` 10 = 0)%N) as [-> | Hdiv].
  - rewrite pretty_N_go_0. eexists _, _. split; [done|].
    apply pretty_N_char_digit, N.mod_lt. lia.
  - apply IH; [apply N.div_lt; lia | by apply N.neq_0_lt_0].
Qed.

Lemma pretty_N_go_Forall (P : byte -> Prop) (x : N) : forall s,
  (forall d, (d < 10)%N -> P (pretty_N_char d)) ->
  Forall P (B s) -> Forall P (B (pretty_N_go x s)).
Proof.
  induction (N.lt_wf_0 x) as [x _ IH]. intros s Hdigit Hs.
  destruct (decide (x = 0)%N) as [-> | Hx]; [by rewrite pretty_N_go_0|].
  rewrite pretty_N_go_step by lia. apply IH; [apply N.div_lt; lia|done|].
  constructor; [|done]. apply Hdigit, N.mod_lt. lia.
Qed.

Lemma pretty_N_go_length (k : nat) : forall x s,
  (x < 10 ^ N.of_nat k)%N ->
  (length (B (pretty_N_go x s)) <= k + length (B s))%nat.
Proof.
  induction k as [|k IH]; intros x s Hx.
  - assert (x = 0%N) as -> by (simpl in Hx; lia). by rewrite pretty_N_go_0.
  - destruct (decide (x = 0)%N) as [-> | Hx0]; [rewrite pretty_N_go_0; lia|].
    rewrite pretty_N_go_step by lia.
    etrans; [apply IH|simpl; lia].
    apply N.Div0.div_lt_upper_bound.
    rewrite Nat2N.inj_succ, N.pow_succ_r' in Hx. lia.
Qed.

Lemma scan_int_pretty (count : Z) :
  0 < count < 2 ^ 31 -> scan_int (B (pretty count)) = Some count.
Proof.
  intros Hcount. rewrite pretty_positive_go by lia.
  destruct (pretty_N_go_head (Z.to_N count) "" ltac:(lia)) as (d & rest & Hhead & Hd).
  pose proof (read_digits_pretty_go (Z.to_N count) "") as Hread.
  rewrite Hhead in *. unfold scan_int.
  assert (Hminus : (d =? "-")%char = false)
    by (apply Ascii.eqb_neq; intros ->; discriminate Hd).
  assert (Hplus : (d =? "+")%char = false)
    by (apply Ascii.eqb_neq; intros ->; discriminate Hd).
  rewrite Hminus, Hplus, Hd, Hread. simpl. f_equal.
  rewrite Z2N.id by lia. unfold strtol_value, LONG_MIN, LONG_MAX.
  rewrite Z.min_r, Z.max_r by lia. apply wrap_int_small. lia.
Qed.

(** ** [letter_counter_reduce] on files written by [write_counts] *)

Lemma strtok_lines_line (l : bytes) : forall token s,
  nl ∉ l -> token ++ l <> [] ->
  strtok_lines token (l ++ nl :: s) = (token ++ l) :: strtok_lines [] s.
Proof.
  induction l as [|c l IH]; intros token s Hnl Hne.
  - rewrite app_nil_r in *. simpl. by destruct token.
  - apply not_elem_of_cons in Hnl as [Hc Hnl]. simpl.
    replace (c =? nl)%char with false by (symmetry; by apply Ascii.eqb_neq).
    rewrite IH; [by rewrite <- app_assoc|done|]. by destruct token.
Qed.

Lemma pretty_count_digits (count : Z) :
  0 < count ->
  (nl ∉ B (pretty count)) /\ no_nul (B (pretty count)) = true
  /\ exists d rest, B (pretty count) = d :: rest /\ isdigit d = true.
Proof.
  intros Hcount. rewrite pretty_positive_go by done.
  pose proof (pretty_N_go_Forall (fun c => c <> nl /\ c <> NUL) (Z.to_N count) "") as Hall.
  specialize (Hall (fun d Hd => proj2 (proj2 (pretty_N_char_digit d Hd)))
                   (Forall_nil_2 _)).
  split_and!.
  - intros Hin. rewrite Forall_forall in Hall. by destruct (Hall _ Hin).
  - apply forallb_forall. intros c Hc%list_elem_of_In.
    rewrite Forall_forall in Hall. destruct (Hall _ Hc) as [_ Hnul].
    apply negb_true_iff. by apply Ascii.eqb_neq.
  - apply pretty_N_go_head. lia.
Qed.

Lemma char_val_letter (i : nat) :
  (i < 26)%nat -> char_val (ascii_of_nat (65 + i)) = 65 + Z.of_nat i.
Proof.
  intros Hi. rewrite char_val_nat, nat_ascii_embedding by lia.
  destruct (Nat.ltb_spec (65 + i) 128); lia.
Qed.

(** Lines 108-110 on a line written by line 53 or line 126. *)
Lemma add_line_token (aggregated_counts : list Z) (i : nat) (count : Z) :
  (i < 26)%nat -> 0 < count < 2 ^ 31 ->
  add_line aggregated_counts (ascii_of_nat (65 + i) :: " "%char :: B (pretty count))
  = alter (fun n => wrap_int (n + count)) i aggregated_counts.
Proof.
  intros Hi Hcount. unfold add_line, sscanf_letter_count.
  destruct (pretty_count_digits count ltac:(lia)) as (_ & _ & d & rest & Hhead & Hd).
  assert (Hskip : skip_spaces (" "%char :: B (pretty count)) = B (pretty count)).
  { rewrite Hhead. cbn [skip_spaces]. change (isspace " ") with true. cbv iota.
    replace (isspace d) with false; [done|].
    revert Hd. unfold isdigit, isspace. cbv zeta.
    generalize (N_of_ascii d). intros n [H1%N.leb_le H2%N.leb_le]%andb_prop.
    symmetry. apply orb_false_intro; [apply N.eqb_neq; lia|].
    apply andb_false_intro2. apply N.leb_gt. lia. }
  rewrite Hskip, scan_int_pretty by done.
  change (char_val "A") with 65. change (char_val "Z") with 90.
  rewrite char_val_letter by done.
  replace (65 <=? 65 + Z.of_nat i) with true by lia.
  replace (65 + Z.of_nat i <=? 90) with true by lia.
  simpl. f_equal. lia.
Qed.

Lemma output_line_app (i : nat) (count : Z) (rest : bytes) :
  output_line i count ++ rest
  = (ascii_of_nat (65 + i) :: " "%char :: B (pretty count)) ++ nl :: rest.
Proof. unfold output_line. simpl. by rewrite <- app_assoc. Qed.

Lemma fold_add_line_counts (counts : list Z) : forall (k : nat) (aggregated_counts : list Z),
  (k + length counts <= 26)%nat ->
  (forall i c, counts !! i = Some c -> 0 <= c < 2 ^ 31) ->
  (forall i a c, aggregated_counts !! (k + i)%nat = Some a -> counts !! i = Some c ->
     0 <= a /\ a + c < 2 ^ 31) ->
  forall j,
    fold_left add_line
      (strtok_lines []
         (concat (imap (fun i c => if 0 <? c then output_line (k + i) c else []) counts)))
      aggregated_counts !! j
    = (fun a => a + (if decide (k <= j)%nat then default 0 (counts !! (j - k)%nat) else 0))
      <$> aggregated_counts !! j.
Proof.
  induction counts as [|c counts IH]; intros k agg Hlen Hcounts Hagg j.
  - simpl. destruct (agg !! j) as [a|]; [|done]. simpl. f_equal.
    destruct (decide _); simpl; lia.
  - rewrite imap_cons, concat_cons.
    rewrite (imap_ext _ (fun i c => if 0 <? c then output_line (S k + i) c else []))
      by (intros i x _; simpl; by rewrite Nat.add_succ_r).
    rewrite Nat.add_0_r.
    pose proof (Hcounts O c eq_refl) as Hc.
    assert (Hlen' : (S k + length counts <= 26)%nat) by (simpl in Hlen; lia).
    assert (Hcounts' : forall i c, counts !! i = Some c -> 0 <= c < 2 ^ 31)
      by (intros i x Hx; by apply (Hcounts (S i))).
    destruct (0 <? c) eqn:Hpos.
    + apply Z.ltb_lt in Hpos.
      destruct (pretty_count_digits c Hpos) as (Hnl & _ & _).
      rewrite output_line_app, strtok_lines_line.
      2:{ apply not_elem_of_cons. split.
          - intros H. apply (f_equal nat_of_ascii) in H.
            rewrite nat_ascii_embedding in H by lia. vm_compute in H. lia.
          - apply not_elem_of_cons. split; [done|]. exact Hnl. }
      2:{ done. }
      cbn [app fold_left]. rewrite add_line_token by lia.
      rewrite IH; [|done|done|].
      * destruct (decide (j = k)) as [->|Hjk].
        -- rewrite list_lookup_alter_eq.
           destruct (agg !! k) as [a|] eqn:Ha; [|done]. simpl. f_equal.
           rewrite decide_False, decide_True by lia. rewrite Nat.sub_diag. simpl.
           rewrite wrap_int_small; [lia|].
           destruct (Hagg O a c) as [? ?]; [by rewrite Nat.add_0_r|done|lia].
        -- rewrite list_lookup_alter_ne by done.
           destruct (agg !! j) as [a|]; [|done]. simpl. f_equal.
           destruct (decide (S k <= j)%nat), (decide (k <= j)%nat); try lia.
           replace (j - k)%nat with (S (j - S k)) by lia. done.
      * intros i a x Ha Hx. rewrite list_lookup_alter_ne in Ha by lia.
        apply (Hagg (S i) a x); [|done]. by rewrite Nat.add_succ_r.
    + cbn [app]. rewrite IH; [|done|done|].
      * destruct (agg !! j) as [a|]; [|done]. simpl. f_equal.
        assert (c = 0) as -> by lia.
        destruct (decide (S k <= j)%nat), (decide (k <= j)%nat); try lia.
        -- replace (j - k)%nat with (S (j - S k)) by lia. done.
        -- replace (j - k)%nat with O by lia. done.
      * intros i a x Ha Hx. apply (Hagg (S i) a x); [|done]. by rewrite Nat.add_succ_r.
Qed.

Lemma output_line_no_nul (i : nat) (count : Z) :
  (i < 26)%nat -> 0 < count -> no_nul (output_line i count) = true.
Proof.
  intros Hi Hcount. destruct (pretty_count_digits count Hcount) as (_ & Hnul & _).
  unfold output_line, no_nul in *. cbn [forallb]. rewrite forallb_app, Hnul.
  cbn [forallb].
  replace (ascii_of_nat (65 + i) =? NUL)%char with false; [done|].
  symmetry. apply Ascii.eqb_neq. intros H. apply (f_equal nat_of_ascii) in H.
  rewrite nat_ascii_embedding in H by lia. vm_compute in H. lia.
Qed.

Lemma write_counts_from_no_nul (counts : list Z) : forall k,
  (k + length counts <= 26)%nat ->
  no_nul (concat (imap (fun i c => if 0 <? c then output_line (k + i) c else []) counts))
  = true.
Proof.
  induction counts as [|c counts IH]; intros k Hlen; [done|].
  rewrite imap_cons, concat_cons, no_nul_app.
  rewrite (imap_ext _ (fun i c => if 0 <? c then output_line (S k + i) c else []))
    by (intros i x _; simpl; by rewrite Nat.add_succ_r).
  rewrite IH by (simpl in Hlen; lia). rewrite andb_true_r.
  destruct (0 <? c) eqn:Hpos; [|done].
  apply output_line_no_nul; [simpl in Hlen|]; lia.
Qed.

(** Lines 100-113 on a file that one [read] of 255 bytes takes whole. *)
Lemma letter_reduce_loop_short (aggregated_counts : list Z) (file : bytes) :
  (length file <= 255)%nat -> no_nul file = true ->
  letter_reduce_loop (length file) aggregated_counts file
  = fold_left add_line (strtok_lines [] file) aggregated_counts.
Proof.
  intros Hlen Hnul. destruct file as [|c file]; [done|].
  cbn [length letter_reduce_loop read].
  rewrite take_ge, drop_ge by exact Hlen.
  rewrite cstr_no_nul by done. by destruct (length file).
Qed.

(** One file written by [write_counts] adds its counts to the counters. *)
Lemma letter_reduce_loop_counts (aggregated_counts counts : list Z) :
  length aggregated_counts = 26%nat -> length counts = 26%nat ->
  (length (write_counts counts) <= 255)%nat ->
  (forall i c, counts !! i = Some c -> 0 <= c < 2 ^ 31) ->
  (forall i a c, aggregated_counts !! i = Some a -> counts !! i = Some c ->
     0 <= a /\ a + c < 2 ^ 31) ->
  letter_reduce_loop (length (write_counts counts)) aggregated_counts (write_counts counts)
  = zip_with Z.add aggregated_counts counts.
Proof.
  intros Hagg Hcounts Hshort Hrange Hsum.
  assert (Hnul : no_nul (write_counts counts) = true).
  { apply (write_counts_from_no_nul counts 0). lia. }
  rewrite letter_reduce_loop_short by done.
  apply list_eq. intros j. unfold write_counts.
  rewrite (fold_add_line_counts counts 0 aggregated_counts); [|lia|done|done].
  rewrite lookup_zip_with, Nat.sub_0_r, decide_True by lia.
  destruct (aggregated_counts !! j) as [a|] eqn:Ha; [|done]. simpl.
  destruct (counts !! j) as [c|] eqn:Hc; [done|].
  apply lookup_lt_Some in Ha. apply lookup_ge_None in Hc. lia.
Qed.

Lemma zip_add_assoc (a : list Z) : forall b c,
  zip_with Z.add (zip_with Z.add a b) c = zip_with Z.add a (zip_with Z.add b c).
Proof.
  induction a as [|x a IH]; intros [|y b] [|z c]; simpl; try done.
  by rewrite IH, Z.add_assoc.
Qed.

Lemma zip_add_zero (a : list Z) : zip_with Z.add a (repeat 0 (length a)) = a.
Proof. induction a as [|x a IH]; simpl; [done|]. by rewrite IH, Z.add_0_r. Qed.

Lemma zip_add_zero_l (a : list Z) : zip_with Z.add (repeat 0 (length a)) a = a.
Proof. induction a as [|x a IH]; simpl; [done|]. by rewrite IH. Qed.

Lemma zip_add_lookup (a b : list Z) (i : nat) (x y : Z) :
  a !! i = Some x -> b !! i = Some y -> zip_with Z.add a b !! i = Some (x + y).
Proof. intros Ha Hb. by rewrite lookup_zip_with, Ha, Hb. Qed.

Lemma totals_length (css : list (list Z)) :
  Forall short_counts css -> length (totals css) = 26%nat.
Proof.
  induction 1 as [|cs css (Hlen & _ & _) _ IH]; [done|].
  simpl. rewrite length_zip_with, IH, Hlen. done.
Qed.

Lemma totals_nonneg (css : list (list Z)) :
  Forall short_counts css -> Forall (Z.le 0) (totals css).
Proof.
  induction 1 as [|cs css (_ & Hcs & _) _ IH].
  - apply Forall_forall. intros x Hx%list_elem_of_In. apply repeat_spec in Hx. lia.
  - simpl. apply Forall_lookup. intros i x Hx.
    apply lookup_zip_with_Some in Hx as (c & t & -> & Hc & Ht).
    rewrite Forall_lookup in Hcs, IH. specialize (Hcs _ _ Hc). specialize (IH _ _ Ht).
    lia.
Qed.

Lemma fold_reduce_files (css : list (list Z)) : forall aggregated_counts,
  length aggregated_counts = 26%nat -> Forall (Z.le 0) aggregated_counts ->
  Forall short_counts css ->
  Forall (fun t => t < 2 ^ 31) (zip_with Z.add aggregated_counts (totals css)) ->
  fold_left (fun counts file => letter_reduce_loop (length file) counts file)
    (write_counts <$> css) aggregated_counts
  = zip_with Z.add aggregated_counts (totals css).
Proof.
  induction css as [|cs css IH]; intros agg Hagg Hpos Hcss Hsum.
  - cbn [fmap list_fmap fold_left]. change (totals []) with (repeat 0 26).
    rewrite <- Hagg. by rewrite zip_add_zero.
  - apply Forall_cons in Hcss as [(Hlen & Hcs & Hshort) Hcss].
    pose proof (totals_length css Hcss) as Htl.
    pose proof (totals_nonneg css Hcss) as Htn.
    cbn [fmap list_fmap fold_left foldr totals] in *. fold (totals css) in *.
    rewrite Forall_lookup in Hpos, Hcs, Htn, Hsum.
    assert (Hbound : forall i a c, agg !! i = Some a -> cs !! i = Some c ->
              0 <= a /\ 0 <= c /\ a + c < 2 ^ 31).
    { intros i a c Ha Hc.
      destruct (lookup_lt_is_Some_2 (totals css) i) as [t Ht].
      { apply lookup_lt_Some in Ha. lia. }
      specialize (Hsum i _ (zip_add_lookup _ _ _ _ _ Ha (zip_add_lookup _ _ _ _ _ Hc Ht))).
      specialize (Hpos _ _ Ha). specialize (Hcs _ _ Hc). specialize (Htn _ _ Ht).
      simpl in *. lia. }
    rewrite letter_reduce_loop_counts; [|done|done|done| |].
    + rewrite IH, zip_add_assoc; [done| | |done|].
      * rewrite length_zip_with. lia.
      * apply Forall_lookup. intros i x Hx.
        apply lookup_zip_with_Some in Hx as (a & c & -> & Ha & Hc).
        destruct (Hbound i a c Ha Hc) as (? & ? & ?). lia.
      * rewrite zip_add_assoc. by apply Forall_lookup.
    + intros i c Hc. destruct (lookup_lt_is_Some_2 agg i) as [a Ha].
      { apply lookup_lt_Some in Hc. lia. }
      destruct (Hbound i a c Ha Hc) as (? & ? & ?). lia.
    + intros i a c Ha Hc. destruct (Hbound i a c Ha Hc) as (? & ? & ?). lia.
Qed.

(** [letter_counter_reduce] on files written by [write_counts], each read
    in one piece: the result file holds the sums. *)
Lemma letter_counter_reduce_totals (counts_of_files : list (list Z)) :
  counts_of_files <> [] ->
  Forall short_counts counts_of_files ->
  Forall (fun t => t < 2 ^ 31) (totals counts_of_files) ->
  letter_counter_reduce (write_counts <$> counts_of_files)
    (Z.of_nat (length counts_of_files))
  = (write_counts (totals counts_of_files), Some 0).
Proof.
  intros Hne Hshort Hsum. unfold letter_counter_reduce.
  replace (Z.of_nat (length counts_of_files) <=? 0) with false
    by (symmetry; apply Z.leb_gt; destruct counts_of_files; [done|cbn [length]; lia]).
  rewrite Nat2Z.id, take_ge by (by rewrite length_fmap).
  pose proof (totals_length _ Hshort) as Hlen.
  assert (Hzero : zip_with Z.add (repeat 0 26) (totals counts_of_files)
                  = totals counts_of_files).
  { rewrite <- Hlen at 1. apply zip_add_zero_l. }
  rewrite fold_reduce_files, Hzero; try done.
  - apply Forall_forall. intros x Hx%list_elem_of_In. apply repeat_spec in Hx. lia.
  - by rewrite Hzero.
Qed.

Lemma letter_counts_length (s : bytes) : length (letter_counts s) = 26%nat.
Proof. unfold letter_counts. by rewrite length_fmap, length_seq. Qed.

Lemma letter_counts_bounds (s : bytes) :
  Forall (fun c => 0 <= c <= Z.of_nat (length s)) (letter_counts s).
Proof.
  unfold letter_counts. rewrite Forall_fmap. apply Forall_forall. intros i _.
  exact (occurrences_bounds i s).
Qed.

Lemma output_line_length (i : nat) (count : Z) :
  0 < count < 10 ^ 6 -> (length (output_line i count) <= 9)%nat.
Proof.
  intros Hcount. unfold output_line. cbn [length]. rewrite length_app.
  rewrite pretty_positive_go by lia.
  pose proof (pretty_N_go_length 6 (Z.to_N count) "" ltac:(simpl; lia)) as Hlen.
  simpl in *. lia.
Qed.

Lemma write_counts_from_length (counts : list Z) : forall k,
  Forall (fun c => c < 10 ^ 6) counts ->
  (length (concat (imap (fun i (c : Z) => if (0 <? c)%Z then output_line (k + i) c else [])
                     counts))
   <= 9 * length counts)%nat.
Proof.
  induction counts as [|c counts IH]; intros k Hcounts; [simpl; lia|].
  apply Forall_cons in Hcounts as [Hc Hcounts].
  rewrite imap_cons, concat_cons, length_app.
  rewrite (imap_ext _ (fun i c => if 0 <? c then output_line (S k + i) c else []))
    by (intros i x _; simpl; by rewrite Nat.add_succ_r).
  specialize (IH (S k) Hcounts). cbn [length].
  destruct (0 <? c) eqn:Hpos.
  - apply Z.ltb_lt in Hpos.
    pose proof (output_line_length (k + 0) c ltac:(lia)). lia.
  - cbn [length]. lia.
Qed.

(** A split of fewer than a million bytes gives an intermediate file of at
    most 26 lines of 9 bytes. *)
Lemma letter_counts_short (s : bytes) :
  Z.of_nat (length s) < 10 ^ 6 -> short_counts (letter_counts s).
Proof.
  intros Hlen. pose proof (letter_counts_bounds s) as Hbounds.
  split; [apply letter_counts_length|]. split.
  - eapply Forall_impl; [exact Hbounds|]. simpl. lia.
  - pose proof (write_counts_from_length (letter_counts s) 0) as Hw.
    rewrite letter_counts_length in Hw. unfold write_counts.
    etrans; [apply Hw|lia].
    eapply Forall_impl; [exact Hbounds|]. simpl. lia.
Qed.

Lemma zip_with_fmap_same {A} (h : Z -> Z -> Z) (f g : A -> Z) (l : list A) :
  zip_with h (f <$> l) (g <$> l) = (fun x => h (f x) (g x)) <$> l.
Proof. induction l as [|x l IH]; simpl; [done|]. f_equal. exact IH. Qed.

(** Counting split by split and adding up is counting the splits put
    together. *)
Lemma totals_letter_counts (parts : list bytes) :
  totals (letter_counts <$> parts) = letter_counts (concat parts).
Proof.
  induction parts as [|s parts IH]; [by vm_compute|].
  cbn [fmap list_fmap totals foldr concat]. fold (totals (letter_counts <$> parts)).
  rewrite IH. unfold letter_counts. rewrite zip_with_fmap_same.
  apply list_fmap_ext. intros _ i _. by rewrite occurrences_app.
Qed.

(** ** The search for the word in a line *)


Lemma is_prefix_nil_r (needle : bytes) : is_prefix needle [] = true -> needle = [].
Proof. by destruct needle. Qed.







(** ** [word_finder_map], line by line *)

Lemma strcpy_take (dst src : bytes) :
  no_nul src = true -> take (length src) (strcpy dst src) = src.
Proof.
  intros Hnul. unfold strcpy. rewrite cstr_no_nul by done. apply take_app_length.
Qed.







Example whole_word_lines :
  unlines (List.filter (whole_word_in (B "cat"))
             [B "the cat sat"; B "concatenate"; B "a cat, a dog"])
  = B "the cat sat" ++ [nl] ++ B "a cat, a dog" ++ [nl].
Proof. vm_compute. reflexivity. Qed.

(** A word with a space in it can be missed: the candidate at offset 1 is
    rejected, the search goes on behind it, at offset 4, and the
    occurrence at offset 3 is never looked at. *)
Example word_with_space_missed stack :
  whole_word_in (B "a a") (B "xa a a") = true
  /\ word_finder_map stack (Some (B "a a")) (B "xa a a" ++ [nl]) = ([], Some 0).
Proof. split; vm_compute; reflexivity. Qed.

(** ** [word_finder_map] on a split put together from two *)

(** Two runs that hold the same line, one of them with other bytes in
    [original_line_copy] and other output behind it: on a byte that is not
    NUL they go on holding the same line and write the same bytes. *)
Lemma finder_byte_same (target_word : bytes) (st1 st2 : finder_state) (c : byte) :
  c <> NUL -> no_nul (current_line st1) = true ->
  current_line st1 = current_line st2 -> finder_hung st1 = finder_hung st2 ->
  let st1' := finder_byte target_word st1 c in
  let st2' := finder_byte target_word st2 c in
  no_nul (current_line st1') = true
  /\ current_line st1' = current_line st2' /\ finder_hung st1' = finder_hung st2'
  /\ exists written,
       finder_out st1' = finder_out st1 ++ written
       /\ finder_out st2' = finder_out st2 ++ written.
Proof.
  intros Hc Hnul Hline Hhung. cbv zeta. unfold finder_byte.
  rewrite <- Hhung, <- Hline. destruct (finder_hung st1) eqn:Hh.
  { split_and!; [done|done|congruence|]. exists []. by rewrite !app_nil_r. }
  destruct (_ || _).
  - unfold finder_flush. rewrite <- Hline.
    destruct (search_line _ _ _ _) as [[|]|]; cbn [current_line finder_hung finder_out].
    + split_and!; [done|done|done|]. eexists. split; [done|].
      rewrite !strcpy_take by done. done.
    + split_and!; [done|done|done|]. exists []. by rewrite !app_nil_r.
    + split_and!; [done|done|done|]. exists []. by rewrite !app_nil_r.
  - cbn [current_line finder_hung finder_out]. split_and!; [|done|done|].
    + rewrite no_nul_app, Hnul. simpl. rewrite andb_true_r.
      apply negb_true_iff. by apply Ascii.eqb_neq.
    + exists []. by rewrite !app_nil_r.
Qed.

Lemma finder_fold_same (target_word s : bytes) : forall st1 st2,
  no_nul s = true -> no_nul (current_line st1) = true ->
  current_line st1 = current_line st2 -> finder_hung st1 = finder_hung st2 ->
  let st1' := fold_left (finder_byte target_word) s st1 in
  let st2' := fold_left (finder_byte target_word) s st2 in
  finder_hung st1' = finder_hung st2'
  /\ exists written,
       finder_out st1' = finder_out st1 ++ written
       /\ finder_out st2' = finder_out st2 ++ written.
Proof.
  induction s as [|c s IH]; intros st1 st2 Hs Hnul Hline Hhung.
  - simpl. split; [done|]. exists []. by rewrite !app_nil_r.
  - simpl in Hs. apply andb_prop in Hs as [Hc%negb_true_iff%Ascii.eqb_neq Hs].
    cbn [fold_left].
    destruct (finder_byte_same target_word st1 st2 c Hc Hnul Hline Hhung)
      as (Hnul' & Hline' & Hhung' & w1 & Ho1 & Ho2).
    destruct (IH _ _ Hs Hnul' Hline' Hhung') as (Hh & w2 & Ho1' & Ho2').
    split; [exact Hh|]. exists (w1 ++ w2).
    rewrite Ho1', Ho2', Ho1, Ho2, <- !app_assoc. done.
Qed.

Lemma finder_fold_returns (target_word s : bytes) : forall st,
  target_word <> [] -> finder_hung st = false ->
  finder_hung (fold_left (finder_byte target_word) s st) = false.
Proof.
  induction s as [|c s IH]; intros st Hword Hst; [done|].
  cbn [fold_left]. apply IH; [done|]. by apply finder_byte_returns.
Qed.

(** After whole records the line buffer is empty. *)
Lemma finder_whole_records (target_word s : bytes) (st : finder_state) :
  whole_records s -> current_line st = [] ->
  let st' := fold_left (finder_byte target_word) s st in
  finder_hung st' = false -> current_line st' = [].
Proof.
  intros [-> | Hlast] Hline; [done|].
  apply last_Some in Hlast as [s' ->]. apply finder_after_newline.
Qed.

Lemma word_finder_map_app (stack stack' word s1 s2 : bytes) :
  cstr word <> [] -> whole_records s1 -> no_nul s2 = true ->
  (word_finder_map stack (Some word) (s1 ++ s2)).1
  = (word_finder_map stack (Some word) s1).1 ++ (word_finder_map stack' (Some word) s2).1.
Proof.
  intros Hword Hs1 Hs2. unfold word_finder_map. rewrite !finder_loop_fold by done.
  cbn [fst]. rewrite fold_left_app.
  set (st0 := {| current_line := []; original_line_copy := stack;
                 finder_out := []; finder_hung := false |}).
  set (st0' := {| current_line := []; original_line_copy := stack';
                  finder_out := []; finder_hung := false |}).
  set (st1 := fold_left (finder_byte (cstr word)) s1 st0).
  assert (Hhung : finder_hung st1 = false) by (by apply finder_fold_returns).
  assert (Hline : current_line st1 = [])
    by (by apply (finder_whole_records (cstr word) s1 st0)).
  destruct (finder_fold_same (cstr word) s2 st1 st0' Hs2) as (_ & written & Ho1 & Ho2).
  - by rewrite Hline.
  - by rewrite Hline.
  - by rewrite Hhung.
  - rewrite Ho1, Ho2. done.
Qed.

Lemma word_finder_map_nil (stack : bytes) (usr_data : bytes) :
  word_finder_map stack (Some usr_data) [] = ([], Some 0).
Proof. reflexivity. Qed.

(** The intermediate files of splits cut at record boundaries, put
    together, are what one call writes on the splits put together. *)
Lemma finder_maps_concat (stack word : bytes) (parts : list bytes) :
  cstr word <> [] -> Forall (fun s => no_nul s = true) parts ->
  (forall i, record_boundary (concat (take i parts)) (concat (drop i parts))) ->
  concat ((fun split => (word_finder_map stack (Some word) split).1) <$> parts)
  = (word_finder_map stack (Some word) (concat parts)).1.
Proof.
  intros Hword. induction parts as [|p ps IH] using rev_ind; intros Hnul Hcuts; [done|].
  apply Forall_app in Hnul as [Hps Hp]. apply Forall_cons in Hp as [Hp _].
  rewrite fmap_app, !concat_app. cbn [fmap list_fmap concat]. rewrite !app_nil_r.
  rewrite IH; [|done|].
  - pose proof (Hcuts (length ps)) as Hcut.
    rewrite take_app_length, drop_app_length in Hcut. simpl in Hcut.
    rewrite app_nil_r in Hcut.
    destruct Hcut as [Hnil | [Hlast | Hnil]].
    + rewrite Hnil. by rewrite word_finder_map_nil.
    + symmetry. apply word_finder_map_app; [done|by right|done].
    + subst p. by rewrite word_finder_map_nil, !app_nil_r.
  - intros i. destruct (decide (i <= length ps)%nat) as [Hi|Hi].
    + specialize (Hcuts i). rewrite take_app_le, drop_app_le in Hcuts by done.
      rewrite concat_app in Hcuts. simpl in Hcuts. rewrite app_nil_r in Hcuts.
      destruct Hcuts as [?|[?|Hnil]]; [by left|right; by left|].
      right; right. by apply app_eq_nil in Hnil as [? _].
    + right; right. by rewrite drop_ge by lia.
Qed.

Lemma whole_records_app (s t : bytes) :
  whole_records s -> whole_records t -> whole_records (s ++ t).
Proof.
  intros Hs [-> | Ht]; [by rewrite app_nil_r|]. right. by rewrite last_app, Ht.
Qed.

Lemma whole_records_concat (parts : list bytes) :
  Forall whole_records parts -> whole_records (concat parts).
Proof.
  induction 1 as [|p ps Hp _ IH]; [by left|]. simpl. by apply whole_records_app.
Qed.

(** X6.  For splits that hold no NUL byte and are made of whole records,
    and a word that is not empty: [word_finder_reduce] on the files
    [word_finder_map] wrote for the splits returns and writes what a
    single call of [word_finder_map] returns and writes on the splits put
    together. *)
Theorem word_finder_reduce_of_maps (stack word : bytes) (splits : list bytes) :
  cstr word <> [] -> splits <> [] ->
  Forall (fun split => whole_records split /\ no_nul split = true) splits ->
  word_finder_reduce ((fun split => (word_finder_map stack (Some word) split).1) <$> splits)
    (Z.of_nat (length splits))
  = word_finder_map stack (Some word) (concat splits).
Proof.
  intros Hword Hne Hsplits.
  rewrite <- (length_fmap (fun split => (word_finder_map stack (Some word) split).1)).
  rewrite word_finder_reduce_concat by (by destruct splits).
  rewrite finder_maps_concat; [| done | |].
  - rewrite (surjective_pairing (word_finder_map _ _ (concat splits))) at 2.
    by rewrite word_finder_map_returns.
  - eapply Forall_impl; [exact Hsplits|]. by intros s [_ ?].
  - intros i. destruct (whole_records_concat (take i splits)) as [Hnil | Hlast].
    + apply Forall_take. eapply Forall_impl; [exact Hsplits|]. by intros s [? _].
    + by left.
    + right. by left.
Qed.

Lemma word_finder_reduce_of_maps_witness :
  let splits := [B "the cat sat" ++ [nl]; B "concatenate" ++ [nl] ++ B "a cat" ++ [nl]] in
  cstr (B "cat") <> [] /\ splits <> []
  /\ Forall (fun split => whole_records split /\ no_nul split = true) splits
  /\ word_finder_reduce
       ((fun split => (word_finder_map [] (Some (B "cat")) split).1) <$> splits)
       (Z.of_nat (length splits))
     = word_finder_map [] (Some (B "cat")) (concat splits).
Proof.
  assert (H1 : cstr (B "cat") <> []) by done.
  assert (H2 : [B "the cat sat" ++ [nl]; B "concatenate" ++ [nl] ++ B "a cat" ++ [nl]]
               <> []) by done.
  assert (H3 : Forall (fun split => whole_records split /\ no_nul split = true)
                 [B "the cat sat" ++ [nl]; B "concatenate" ++ [nl] ++ B "a cat" ++ [nl]]).
  { repeat (apply Forall_cons; split; [split; [by right|reflexivity]|]).
    apply Forall_nil_2. }
  split; [exact H1|]. split; [exact H2|]. split; [exact H3|].
  exact (word_finder_reduce_of_maps [] (B "cat")
           [B "the cat sat" ++ [nl]; B "concatenate" ++ [nl] ++ B "a cat" ++ [nl]]
           H1 H2 H3).
Defined.

(** ** Long lines and the empty word *)

(** X7.  When the line buffer of [word_finder_map] holds 1023 bytes, the
    next byte ends the line whatever it is, and is stored nowhere: the
    function writes and returns what it would if that byte were a
    newline. *)
Theorem long_line_cut_at_1023 (stack word s0 pre rest : bytes) (c : byte) :
  whole_records s0 -> nl ∉ pre -> length pre = (LINE_SIZE - 1)%nat ->
  word_finder_map stack (Some word) (s0 ++ pre ++ c :: rest)
  = word_finder_map stack (Some word) (s0 ++ pre ++ nl :: rest).
Proof.
  intros Hs0 Hnl Hlen. unfold word_finder_map. rewrite !finder_loop_fold by done.
  rewrite !fold_left_app.
  set (st0 := {| current_line := []; original_line_copy := stack;
                 finder_out := []; finder_hung := false |}).
  set (st1 := fold_left (finder_byte (cstr word)) s0 st0).
  destruct (finder_hung st1) eqn:Hhung.
  { rewrite !(fold_finder_hung _ _ st1) by done. done. }
  assert (Hline : current_line st1 = [])
    by (by apply (finder_whole_records (cstr word) s0 st0)).
  rewrite (finder_tail (cstr word) pre st1); [|done|done|rewrite Hline, Hlen; simpl; lia].
  cbn [fold_left]. unfold finder_byte at 2 4. cbn [finder_hung current_line].
  rewrite Hline. cbn [app]. rewrite Hlen, Nat.eqb_refl, !orb_true_r. done.
Qed.

Lemma long_line_cut_at_1023_witness :
  whole_records (B "first" ++ [nl]) /\ (nl ∉ repeat "x"%char 1023)
  /\ length (repeat "x"%char 1023) = (LINE_SIZE - 1)%nat
  /\ word_finder_map [] (Some (B "cat"))
       ((B "first" ++ [nl]) ++ repeat "x"%char 1023 ++ "y"%char :: B " cat" ++ [nl])
     = word_finder_map [] (Some (B "cat"))
         ((B "first" ++ [nl]) ++ repeat "x"%char 1023 ++ nl :: B " cat" ++ [nl]).
Proof.
  assert (H1 : whole_records (B "first" ++ [nl])) by (by right).
  assert (H2 : nl ∉ repeat "x"%char 1023).
  { intros Hin%list_elem_of_In. by apply repeat_spec in Hin. }
  assert (H3 : length (repeat "x"%char 1023) = (LINE_SIZE - 1)%nat)
    by apply repeat_length.
  split; [exact H1|]. split; [exact H2|]. split; [exact H3|].
  exact (long_line_cut_at_1023 [] (B "cat") (B "first" ++ [nl]) (repeat "x"%char 1023)
           (B " cat" ++ [nl]) "y"%char H1 H2 H3).
Defined.

(** With the empty word [strstr] finds it where the search stands, and a
    candidate that is rejected moves the search by zero bytes. *)
Lemma search_line_empty_word (line : bytes) (c : byte) : forall fuel,
  line !! 0%nat = Some c ->
  (c =? ",")%char || (c =? ".")%char || (c =? " ")%char = false ->
  search_line fuel line [] 0 = None.
Proof.
  induction fuel as [|fuel IH]; intros Hc Hsep; [done|].
  cbn [search_line]. rewrite drop_0.
  assert (Hstr : strstr line [] = Some 0%nat) by (by destruct line).
  rewrite Hstr. cbn [Nat.add length]. unfold word_boundaries. cbn [Nat.add andb].
  rewrite Hc, Hsep. by apply IH.
Qed.

(** X8.  With the empty word, at the first line that starts with a byte
    other than a comma, a full stop, a space or NUL, [word_finder_map]
    never returns: the search of lines 173-187 repeats one step for ever.
    What it wrote for the lines before stays written. *)
Theorem empty_word_never_returns (stack word s0 line rest : bytes) (c : byte) :
  cstr word = [] ->
  whole_records s0 -> (word_finder_map stack (Some word) s0).2 = Some 0 ->
  c <> nl -> c <> NUL ->
  (c =? ",")%char || (c =? ".")%char || (c =? " ")%char = false ->
  nl ∉ line -> (length line < LINE_SIZE - 1)%nat ->
  word_finder_map stack (Some word) (s0 ++ c :: line ++ nl :: rest)
  = ((word_finder_map stack (Some word) s0).1, None).
Proof.
  intros Hword Hs0 Hret Hcnl Hcnul Hsep Hnl Hlen. unfold word_finder_map in *.
  rewrite !finder_loop_fold in * by done. rewrite Hword in *.
  set (st0 := {| current_line := []; original_line_copy := stack;
                 finder_out := []; finder_hung := false |}) in *.
  set (st1 := fold_left (finder_byte []) s0 st0) in *. cbn [fst snd] in *.
  assert (Hhung : finder_hung st1 = false) by (by destruct (finder_hung st1)).
  assert (Hline : current_line st1 = [])
    by (by apply (finder_whole_records [] s0 st0)).
  change (c :: line ++ nl :: rest) with ((c :: line) ++ nl :: rest).
  rewrite !fold_left_app. fold st1.
  rewrite (finder_tail [] (c :: line) st1);
    [|by apply not_elem_of_cons|done|rewrite Hline; cbn [length] in *; lia].
  cbn [fold_left]. rewrite Hline. cbn [app].
  match goal with |- context [finder_byte [] ?st nl] =>
    assert (Hflush : finder_byte [] st nl
                     = {| current_line := c :: line;
                          original_line_copy := strcpy (original_line_copy st1) (c :: line);
                          finder_out := finder_out st1;
                          finder_hung := true |})
  end.
  { unfold finder_byte. cbn [finder_hung current_line].
    rewrite Ascii.eqb_refl. cbn [orb]. unfold finder_flush.
    cbn [current_line original_line_copy finder_out cstr].
    replace (c =? NUL)%char with false by (symmetry; by apply Ascii.eqb_neq).
    by rewrite (search_line_empty_word _ c). }
  rewrite Hflush, fold_finder_hung by done. done.
Qed.

Lemma empty_word_never_returns_witness :
  cstr (B "") = [] /\ whole_records (B ", so" ++ [nl])
  /\ (word_finder_map [] (Some (B "")) (B ", so" ++ [nl])).2 = Some 0
  /\ "x"%char <> nl /\ "x"%char <> NUL
  /\ ("x" =? ",")%char || ("x" =? ".")%char || ("x" =? " ")%char = false
  /\ (nl ∉ B "yz") /\ (length (B "yz") < LINE_SIZE - 1)%nat
  /\ word_finder_map [] (Some (B ""))
       ((B ", so" ++ [nl]) ++ "x"%char :: B "yz" ++ nl :: B "more" ++ [nl])
     = ((word_finder_map [] (Some (B "")) (B ", so" ++ [nl])).1, None).
Proof.
  assert (H2 : whole_records (B ", so" ++ [nl])) by (by right).
  assert (H7 : nl ∉ B "yz") by (apply (bool_decide_unpack _); vm_compute; exact I).
  assert (H8 : (length (B "yz") < LINE_SIZE - 1)%nat) by (unfold LINE_SIZE; simpl; lia).
  split_and!; [reflexivity|exact H2|reflexivity|done|done|reflexivity|exact H7|exact H8|].
  exact (empty_word_never_returns [] (B "") (B ", so" ++ [nl]) (B "yz") (B "more" ++ [nl])
           "x"%char eq_refl H2 eq_refl ltac:(done) ltac:(done) eq_refl H7 H8).
Defined.

Lemma fold_finder_reduce (input_fds : list bytes) : forall output,
  fold_left (fun output file => finder_reduce_loop (length file) output file)
    input_fds output
  = output ++ concat input_fds.
Proof.
  induction input_fds as [|file files IH]; intros output; simpl.
  - by rewrite app_nil_r.
  - rewrite IH, finder_reduce_loop_copy by done. by rewrite app_assoc.
Qed.

(** X9.  [word_finder_reduce] with a count between 1 and the number of
    descriptors returns 0 and writes the first [num_input_fds] files one
    after the other, byte for byte, NUL bytes and a missing last newline
    included; the files behind these are not read. *)
Theorem word_finder_reduce_copies (input_fds : list bytes) (num_input_fds : Z) :
  0 < num_input_fds <= Z.of_nat (length input_fds) ->
  word_finder_reduce input_fds num_input_fds
  = (concat (take (Z.to_nat num_input_fds) input_fds), Some 0).
Proof.
  intros Hnum. unfold word_finder_reduce.
  replace (num_input_fds <=? 0) with false by lia. by rewrite fold_finder_reduce.
Qed.

Lemma word_finder_reduce_copies_witness :
  0 < 2 <= Z.of_nat (length [B "ab" ++ [NUL]; [nl]; B "never read"])
  /\ word_finder_reduce [B "ab" ++ [NUL]; [nl]; B "never read"] 2
     = (concat (take (Z.to_nat 2) [B "ab" ++ [NUL]; [nl]; B "never read"]), Some 0).
Proof.
  split; [simpl; lia|].
  apply (word_finder_reduce_copies [B "ab" ++ [NUL]; [nl]; B "never read"] 2).
  simpl. lia.
Defined.

(** ** The data flow of a job, file by file *)






(** Lines 133-138: the first intermediate file that is missing stops the
    reduce worker. *)
Lemma open_intermediate_missing todo : forall i fs j,
  (i <= j < i + todo)%nat -> fs !! intermediate_filename j = None ->
  exists j', (i <= j' <= j)%nat /\ fs !! intermediate_filename j' = None
             /\ open_intermediate todo i fs = inl (intermediate_filename j').
Proof.
  induction todo as [|todo IH]; intros i fs j Hj Hnone; [lia|].
  cbn [open_intermediate].
  destruct (fs !! intermediate_filename i) as [file|] eqn:Hi.
  - destruct (IH (S i) fs j) as (j' & Hj' & Hnone' & ->); [|done|].
    + destruct (decide (j = i)) as [->|]; [congruence|lia].
    + exists j'. split; [lia|done].
  - exists i. split; [lia|done].
Qed.





(** X11.  A reduce worker that finds one of the [N] intermediate files
    missing exits with [ERROR] after one diagnostic that names the first
    file it could not open; it creates no result file and changes no
    file. *)
Theorem reduce_worker_missing_intermediate spec (N i : nat) (fs : gmap string bytes) :
  (i < N)%nat -> fs !! intermediate_filename i = None ->
  let r := reduce_worker spec (Z.of_nat N) fs in
  cr_exit r = Some ERROR /\ cr_fs r = fs
  /\ exists j, (j <= i)%nat /\ fs !! intermediate_filename j = None
       /\ cr_stderr r = ["Error: Unable to open intermediate file: "
                         +:+ intermediate_filename j +:+ line_end].
Proof.
  intros Hi Hnone r. subst r. unfold reduce_worker. rewrite Nat2Z.id.
  destruct (open_intermediate_missing N 0 fs i ltac:(lia) Hnone) as (j & Hj & Hj' & ->).
  split; [done|]. split; [done|]. exists j. split; [lia|done].
Qed.

Lemma reduce_worker_missing_intermediate_witness :
  let spec := letter_counter_job "input.txt" 2 in
  let fs : gmap string bytes := {[ "mr-0.itm" := B "A 3" ++ [nl] ]} in
  (1 < 2)%nat /\ fs !! intermediate_filename 1 = None
  /\ cr_exit (reduce_worker spec (Z.of_nat 2) fs) = Some ERROR
  /\ cr_fs (reduce_worker spec (Z.of_nat 2) fs) = fs
  /\ exists j, (j <= 1)%nat /\ fs !! intermediate_filename j = None
       /\ cr_stderr (reduce_worker spec (Z.of_nat 2) fs)
          = ["Error: Unable to open intermediate file: "
             +:+ intermediate_filename j +:+ line_end].
Proof.
  split; [lia|]. split; [reflexivity|].
  apply (reduce_worker_missing_intermediate (letter_counter_job "input.txt" 2) 2 1
           {[ "mr-0.itm" := B "A 3" ++ [nl] ]}); [lia|reflexivity].
Defined.

(** ** What a job leaves alone *)

Lemma keeps_file_bind {A C} name (m : coord A) (k : A -> coord C) :
  keeps_file name m -> (forall a, keeps_file name (k a)) -> keeps_file name (bind m k).
Proof.
  intros Hm Hk w. unfold bind. specialize (Hm w).
  destruct (m w) as [a w'| | |]; try done. by rewrite Hk.
Qed.

Lemma keeps_file_ret {A} name (a : A) : keeps_file name (ret a).
Proof. by intros w. Qed.

Lemma keeps_file_emit name e : keeps_file name (emit e).
Proof. by intros w. Qed.

Lemma keeps_file_exit {A} name status msg : keeps_file name (@EXIT_ERROR A status msg).
Proof. by intros w. Qed.

Lemma keeps_file_waitpid name pid status : keeps_file name (waitpid pid status).
Proof.
  intros w. unfold waitpid. destruct pid as [|p|p]; try done.
  by destruct (w_children w !! p) as [[?|]|].
Qed.

Lemma keeps_file_fork name env who child :
  (forall fs, cr_fs (child fs) !! name = fs !! name) ->
  keeps_file name (fork env who child).
Proof.
  intros Hchild w. unfold fork. destruct (env_fork env _ _) as [p|]; [|done].
  unfold run_child. destruct (env_kill env p); [done|]. simpl. apply Hchild.
Qed.

Lemma keeps_file_spawn_loop name env spec todo : forall i map_worker_pids result,
  (forall j, name <> intermediate_filename j) ->
  keeps_file name (spawn_loop env spec todo i map_worker_pids result).
Proof.
  induction todo as [|todo IH]; intros i pids result Hname; [apply keeps_file_ret|].
  cbn [spawn_loop]. apply keeps_file_bind.
  - apply keeps_file_fork. intros fs. by apply map_worker_other.
  - intros pid. destruct (pid <? 0); [apply keeps_file_exit|].
    apply keeps_file_bind; [apply keeps_file_emit|]. intros _. by apply IH.
Qed.

Lemma keeps_file_wait_loop name todo : forall i map_worker_pids status,
  keeps_file name (wait_loop todo i map_worker_pids status).
Proof.
  induction todo as [|todo IH]; intros i pids status; [apply keeps_file_ret|].
  cbn [wait_loop]. apply keeps_file_bind; [apply keeps_file_waitpid|].
  intros status'. apply keeps_file_bind; [|intros _; apply IH].
  destruct (failed status'); [apply keeps_file_emit|apply keeps_file_ret].
Qed.

Lemma keeps_file_reduce_phase name env spec status result :
  name <> "mr.rst" -> keeps_file name (reduce_phase env spec status result).
Proof.
  intros Hname. unfold reduce_phase. apply keeps_file_bind.
  - apply keeps_file_fork. intros fs. by apply reduce_worker_other.
  - intros pid. destruct (pid <? 0); [apply keeps_file_exit|].
    apply keeps_file_bind; [apply keeps_file_emit|]. intros _.
    apply keeps_file_bind; [apply keeps_file_waitpid|]. intros status'.
    apply keeps_file_bind; [|intros _; apply keeps_file_ret].
    destruct (failed status'); [apply keeps_file_emit|apply keeps_file_ret].
Qed.

(** X12.  Whatever the arguments, the environment and the way the job ends,
    a file whose name is none of split-i, mr-i.itm and mr.rst holds after
    the job what it held before: an input file under another name is never
    written to. *)
Theorem job_changes_only_its_files env spec result (w : world) (name : string) :
  (forall i, name <> split_filename i) ->
  (forall i, name <> intermediate_filename i) ->
  name <> "mr.rst" ->
  w_fs (outcome_world (mapreduce env spec result w)) !! name = w_fs w !! name.
Proof.
  intros Hsplit Hitm Hrst.
  unfold mapreduce. destruct spec as [spec|], result as [result|]; try done.
  unfold bind at 1, get_fs.
  destruct (w_fs w !! input_data_filepath spec) as [input|]; [|done].
  destruct (split_num spec =? 0); [done|].
  destruct (split_num spec <? 0); [done|].
  unfold bind at 1, set_fs.
  match goal with |- w_fs (outcome_world (?m ?w1)) !! _ = _ =>
    assert (Hkeep : keeps_file name m);
      [|rewrite (Hkeep w1); by apply split_loop_other]
  end.
  apply keeps_file_bind; [by apply keeps_file_spawn_loop|]. intros [pids result1].
  apply keeps_file_bind; [apply keeps_file_wait_loop|]. intros status.
  by apply keeps_file_reduce_phase.
Qed.

Lemma job_changes_only_its_files_witness :
  (forall i, "input.txt" <> split_filename i)
  /\ (forall i, "input.txt" <> intermediate_filename i)
  /\ "input.txt" <> "mr.rst"
  /\ w_fs (outcome_world (mapreduce env_killall (Some (letter_counter_job "input.txt" 2))
                            (Some result0) (boot letters_fs))) !! "input.txt"
     = w_fs (boot letters_fs) !! "input.txt".
Proof.
  assert (H1 : forall i, "input.txt" <> split_filename i)
    by (intros i; unfold split_filename; simpl; discriminate).
  assert (H2 : forall i, "input.txt" <> intermediate_filename i)
    by (intros i; unfold intermediate_filename; simpl; discriminate).
  assert (H3 : "input.txt" <> "mr.rst") by discriminate.
  split; [exact H1|]. split; [exact H2|]. split; [exact H3|].
  exact (job_changes_only_its_files env_killall (Some (letter_counter_job "input.txt" 2))
           (Some result0) (boot letters_fs) "input.txt" H1 H2 H3).
Defined.

(** ** The exit statuses of the workers *)






(** ** The statuses the coordinator gets to see *)

Section Statuses.
Variable env : environment.
Variable spec : MAPREDUCE_SPEC.
Hypothesis Hforks : forks_succeed env.
Hypothesis Hkill : nobody_killed env.
Hypothesis Hos : os_sound env.

Local Arguments map_worker : simpl never.
Local Arguments reduce_worker : simpl never.





End Statuses.



(** Without a word both map functions return -1, and the reduce function
    succeeds on two empty files: two diagnostics, one for each map worker. *)
Example failures_of_job_without_word :
  let spec := word_finder_job_without_word [] "input.txt" 2 in
  concat (imap (fun i split =>
                  if returns_success (map_func spec (usr_data spec) split).2
                  then [] else [map_failed_msg i]) (partition words_input 2))
  = [map_failed_msg 0; map_failed_msg 1].
Proof. vm_compute. reflexivity. Qed.

(** ** The two jobs, end to end *)


(** The intermediate files of the letter counter, reduced. *)
Lemma letter_counter_reduce_maps (usr_data : option bytes) (splits : list bytes) :
  splits <> [] ->
  Forall (fun split => Z.of_nat (length split) < 10 ^ 6) splits ->
  Z.of_nat (length (concat splits)) < 2 ^ 31 ->
  letter_counter_reduce ((fun split => (letter_counter_map usr_data split).1) <$> splits)
    (Z.of_nat (length splits))
  = (write_counts (letter_counts (concat splits)), Some 0).
Proof.
  intros Hne Hshort Htotal.
  assert (Hfiles : (fun split => (letter_counter_map usr_data split).1) <$> splits
                   = write_counts <$> (letter_counts <$> splits)).
  { rewrite <- list_fmap_compose. apply Forall_fmap_ext_1.
    eapply Forall_impl; [exact Hshort|]. intros split Hlen. cbv beta in *.
    unfold letter_counter_map, compose. cbn [fst].
    rewrite letter_map_loop_counts; [done|]. lia. }
  rewrite Hfiles, <- (length_fmap letter_counts splits).
  rewrite letter_counter_reduce_totals.
  - by rewrite totals_letter_counts.
  - by destruct splits.
  - apply Forall_fmap. eapply Forall_impl; [exact Hshort|].
    intros split Hlen. cbv beta in *. by apply letter_counts_short.
  - rewrite totals_letter_counts.
    eapply Forall_impl; [apply letter_counts_bounds|]. simpl. lia.
Qed.

(** X14.  For splits of fewer than a million bytes each, so that every
    intermediate file fits into one [read] of 255 bytes, and fewer than
    2^31 bytes together: [letter_counter_reduce] on the files
    [letter_counter_map] wrote for the splits returns and writes what a
    single call of [letter_counter_map] returns and writes on the splits
    put together. *)
Theorem letter_counter_reduce_of_maps (usr_data : option bytes) (splits : list bytes) :
  splits <> [] ->
  Forall (fun split => Z.of_nat (length split) < 10 ^ 6) splits ->
  Z.of_nat (length (concat splits)) < 2 ^ 31 ->
  letter_counter_reduce ((fun split => (letter_counter_map usr_data split).1) <$> splits)
    (Z.of_nat (length splits))
  = letter_counter_map usr_data (concat splits).
Proof.
  intros Hne Hshort Htotal. rewrite letter_counter_reduce_maps by done.
  unfold letter_counter_map. by rewrite letter_map_loop_counts.
Qed.

Lemma letter_counter_reduce_of_maps_witness :
  let splits := [B "AAAB" ++ [nl]; B "bbcc" ++ [nl]] in
  splits <> []
  /\ Forall (fun split => Z.of_nat (length split) < 10 ^ 6) splits
  /\ Z.of_nat (length (concat splits)) < 2 ^ 31
  /\ letter_counter_reduce ((fun split => (letter_counter_map None split).1) <$> splits)
       (Z.of_nat (length splits))
     = letter_counter_map None (concat splits).
Proof.
  assert (H1 : [B "AAAB" ++ [nl]; B "bbcc" ++ [nl]] <> []) by done.
  assert (H2 : Forall (fun split => Z.of_nat (length split) < 10 ^ 6)
                 [B "AAAB" ++ [nl]; B "bbcc" ++ [nl]])
    by (repeat (apply Forall_cons; split; [reflexivity|]); apply Forall_nil_2).
  assert (H3 : Z.of_nat (length (concat [B "AAAB" ++ [nl]; B "bbcc" ++ [nl]])) < 2 ^ 31)
    by reflexivity.
  split; [exact H1|]. split; [exact H2|]. split; [exact H3|].
  exact (letter_counter_reduce_of_maps None [B "AAAB" ++ [nl]; B "bbcc" ++ [nl]] H1 H2 H3).
Defined.

(** An intermediate file of more than 255 bytes is read in two pieces, and
    each piece is cut into lines on its own: the line that lies across the
    two pieces gives two tokens, neither of which is counted.  With ten
    million occurrences of every letter the file has 286 bytes, the line of
    X is the one that is cut, and X is missing from the result. *)
Example letter_counter_reduce_long_file :
  length (write_counts (repeat 10000000 26)) = 286%nat
  /\ (letter_counter_reduce [write_counts (repeat 10000000 26)] 1).1
     = write_counts (repeat 10000000 23 ++ [0] ++ repeat 10000000 2).
Proof. split; vm_compute; reflexivity. Qed.





